(** * camera_calibration: extrinsic calibration of a camera rig

    Shallow embedding of
      - [camera_calibration_lib/chessboard_pose_estimation.py]
      - [camera_calibration_lib/cameras_extrinsic_calibration.py]

    Conventions of the embedding.
      - numpy arrays of rank 2 are row-major lists of rows; their entries
        are exact rationals ([Qc]), so [np.mean], [np.linalg.inv] and
        [np.matmul] are computed without rounding;
      - camera objects live in a store indexed by their identity, a camera
        list is a list of identities (the same object may occur twice);
      - every device call is recorded in a chronological trace;
      - the OpenCV routines are an interface ([OpenCV]);
      - the [while not pose_found] loop takes a bound on its iterations
        (fuel); [OutOfFuel] stands for a loop still running. *)

From Stdlib Require Import List ZArith QArith Qcanon Lia Bool Arith Field.
Import ListNotations.

Open Scope Qc_scope.

(** ** numpy arrays *)

Module Np.

Definition matrix := list (list Qc).

Definition of_nat (n : nat) : Qc := Q2Qc (inject_Z (Z.of_nat n)).

(** [np.zeros((r, c))] *)
Definition zeros (r c : nat) : matrix := repeat (repeat 0 c) r.

(** [np.eye(n)] *)
Definition eye (n : nat) : matrix :=
  map (fun i => map (fun j => if Nat.eqb i j then 1 else 0) (seq 0 n)) (seq 0 n).

(** shape test: [r] rows of [c] entries each *)
Definition has_shape (r c : nat) (m : matrix) : bool :=
  Nat.eqb (length m) r && forallb (fun row => Nat.eqb (length row) c) m.

(** [m[i][j]] *)
Definition entry (m : matrix) (i j : nat) : Qc := nth j (nth i m []) 0.

Definition ncols (m : matrix) : nat := length (hd [] m).

Definition col (j : nat) (m : matrix) : list Qc := map (fun row => nth j row 0) m.

Fixpoint dot (u v : list Qc) : Qc :=
  match u, v with
  | x :: u', y :: v' => x * y + dot u' v'
  | _, _ => 0
  end.

(** [a.T] for an array with [c] columns *)
Definition transpose (m : matrix) : matrix :=
  map (fun j => col j m) (seq 0 (ncols m)).

(** [np.matmul(a, b)] on conformable rank-2 arrays *)
Definition matmul (a b : matrix) : matrix :=
  map (fun row => map (fun j => dot row (col j b)) (seq 0 (ncols b))) a.

Fixpoint map2 {A B C} (f : A -> B -> C) (l : list A) (l' : list B) : list C :=
  match l, l' with
  | x :: t, y :: t' => f x y :: map2 f t t'
  | _, _ => []
  end.

(** element-wise sum of two arrays of one shape *)
Definition add (a b : matrix) : matrix := map2 (map2 Qcplus) a b.

(** array times scalar *)
Definition scale (k : Qc) (a : matrix) : matrix := map (map (fun x => x * k)) a.

(** [np.mean(np.array(ms), 0)]: the element-wise mean along the first
    axis.  The mean of no array at all is NaN in numpy; it has no value
    here. *)
Definition mean0 (ms : list matrix) : option matrix :=
  match ms with
  | [] => None
  | m :: rest => Some (scale (/ of_nat (length ms)) (fold_left add rest m))
  end.

(** [dst[r0:r0+h, c0:c0+w] = src] for a source of shape [(h, w)]; numpy
    raises ValueError for a source that does not fit the block. *)
Definition splice {A} (at_ : nat) (new old : list A) : list A :=
  firstn at_ old ++ new ++ skipn (at_ + length new) old.

Definition set_block (r0 c0 h w : nat) (src dst : matrix) : option matrix :=
  if has_shape h w src then
    Some (firstn r0 dst
          ++ map2 (fun s d => splice c0 s d) src (firstn h (skipn r0 dst))
          ++ skipn (r0 + h) dst)
  else None.

(** Determinant of an [n] x [n] array, by expansion along the first row. *)
Definition drop_nth {A} (j : nat) (l : list A) : list A :=
  firstn j l ++ skipn (S j) l.

Definition sign (j : nat) : Qc := if Nat.even j then 1 else - (1).

Fixpoint det (n : nat) (m : matrix) : Qc :=
  match n with
  | O => 1
  | S n' =>
      match m with
      | [] => 0
      | row :: rest =>
          fold_right Qcplus 0
            (map (fun j => sign j * nth j row 0 * det n' (map (drop_nth j) rest))
                 (seq 0 n))
      end
  end.

(** the minor of [m] without row [i] and column [j] *)
Definition minor (i j : nat) (m : matrix) : matrix :=
  map (drop_nth j) (drop_nth i m).

Definition cofactor (n i j : nat) (m : matrix) : Qc :=
  sign (i + j) * det (pred n) (minor i j m).

(** the adjugate: transposed matrix of cofactors *)
Definition adjugate (n : nat) (m : matrix) : matrix :=
  map (fun i => map (fun j => cofactor n j i m) (seq 0 n)) (seq 0 n).

(** [np.linalg.inv(m)]: the inverse of a square array, LinAlgError
    ("Singular matrix") when there is none.  The inverse is unique, so
    in exact arithmetic it does not matter how it is obtained; here it is
    the adjugate divided by the determinant.  numpy raises when its LU
    factorisation meets a pivot that is exactly zero, which in exact
    arithmetic is when the determinant is zero; on doubles the two can
    differ by rounding. *)
Definition inv (m : matrix) : option matrix :=
  let n := length m in
  let d := det n m in
  if Qc_eq_dec d 0 then None else Some (scale (/ d) (adjugate n m)).

End Np.

Import Np.

(** ** Outcomes, devices, the store and the trace *)

(** The exceptions the two functions can raise.  [FloatNaN] is not a
    Python exception: it marks a value ([np.mean] of zero samples) that
    exact rationals cannot hold. *)
Inductive exn : Type :=
  | AssertionError | ValueError | IndexError | LinAlgError | FloatNaN.

Inductive result (A : Type) : Type :=
  | Ok (a : A)
  | Raise (e : exn)
  | OutOfFuel.
Arguments Ok {A} a.
Arguments Raise {A} e.
Arguments OutOfFuel {A}.

(** [camera.get_intrinsics()]: a dict with keys fx, fy, px, py *)
Record Intrinsics : Type := { fx : Qc; fy : Qc; px : Qc; py : Qc }.

(** Device calls and window calls, in the order they happen. *)
Inductive Event : Type :=
  | GetRgb (camera : nat)
  | GetIntrinsics (camera : nat)
  | NamedWindow
  | Imshow
  | WaitKey.

(** the cameras on which the pose estimation was entered, in call order:
    each call starts with [camera.get_intrinsics()] *)
Definition calls (evs : list Event) : list nat :=
  flat_map (fun e => match e with GetIntrinsics c => [c] | _ => [] end) evs.

(** how many frames of camera [c] were captured *)
Definition captures (c : nat) (evs : list Event) : nat :=
  length (filter (fun e => match e with GetRgb c' => Nat.eqb c' c | _ => false end) evs).

(** window calls, as opposed to device calls *)
Definition is_window (e : Event) : bool :=
  match e with
  | NamedWindow | Imshow | WaitKey => true
  | _ => false
  end.

(** The OpenCV routines used by the pose estimation.  A rotation vector
    becomes a 3x3 array, a successful solve returns a 3x1 translation. *)
Class OpenCV : Type := {
  Image : Type;
  Gray : Type;
  cvtColor : Image -> Gray;
  findChessboardCorners : Gray -> nat * nat -> bool * matrix;
  cornerSubPix : Gray -> matrix -> nat * nat -> Z * Z -> Z * Z * Qc -> matrix;
  solvePnP : matrix -> matrix -> matrix -> matrix -> bool * matrix * matrix;
  Rodrigues : matrix -> matrix;
  Rodrigues_shape : forall v, has_shape 3 3 (Rodrigues v) = true;
  solvePnP_shape : forall objp corners mtx dist rvec tvec,
      solvePnP objp corners mtx dist = (true, rvec, tvec) ->
      has_shape 3 1 tvec = true
}.

Section Calibration.

Context {cv : OpenCV}.

(** A camera object: its intrinsics and the live stream it will deliver. *)
Record Camera : Type := {
  intrinsics : Intrinsics;
  frames : nat -> Image
}.

(** The store: camera objects by identity, how many frames each one has
    delivered so far, and the trace. *)
Record World : Type := {
  cameras_of : nat -> Camera;
  grabbed : nat -> nat;
  trace : list Event
}.

Definition M (A : Type) : Type := World -> result A * World.

Definition ret {A} (a : A) : M A := fun w => (Ok a, w).

Definition raise {A} (e : exn) : M A := fun w => (Raise e, w).

Definition bind {A B} (m : M A) (k : A -> M B) : M B :=
  fun w =>
    match m w with
    | (Ok a, w') => k a w'
    | (Raise e, w') => (Raise e, w')
    | (OutOfFuel, w') => (OutOfFuel, w')
    end.

Notation "x <- m ;; k" := (bind m (fun x => k))
  (at level 61, m at next level, right associativity).
Notation "m ;;; k" := (bind m (fun _ => k))
  (at level 61, right associativity).

Definition of_option {A} (e : exn) (o : option A) : M A :=
  match o with
  | Some a => ret a
  | None => raise e
  end.

Definition emit (e : Event) : M unit :=
  fun w => (Ok tt, {| cameras_of := cameras_of w; grabbed := grabbed w;
                      trace := trace w ++ [e] |}).

(** [camera.get_rgb()]: the next frame of the stream *)
Definition get_rgb (camera : nat) : M Image :=
  fun w =>
    (Ok (frames (cameras_of w camera) (grabbed w camera)),
     {| cameras_of := cameras_of w;
        grabbed := fun c => if Nat.eqb c camera then S (grabbed w c) else grabbed w c;
        trace := trace w ++ [GetRgb camera] |}).

(** [camera.get_intrinsics()] *)
Definition get_intrinsics (camera : nat) : M Intrinsics :=
  fun w =>
    (Ok (intrinsics (cameras_of w camera)),
     {| cameras_of := cameras_of w; grabbed := grabbed w;
        trace := trace w ++ [GetIntrinsics camera] |}).

(** ** chessboard_pose_estimation.py *)

(** [np.array([[fx, 0, px], [0, fy, py], [0, 0, 1]])] *)
Definition camera_matrix (intr : Intrinsics) : matrix :=
  [[fx intr; 0; px intr]; [0; fy intr; py intr]; [0; 0; 1]].

(** [np.array([[0., 0., 0., 0., 0.]])] *)
Definition dist : matrix := [[0; 0; 0; 0; 0]].

Definition mm2m : Qc := Q2Qc (1 # 1000).

(** [(cv2.TERM_CRITERIA_EPS + cv2.TERM_CRITERIA_MAX_ITER, 30, 0.001)] *)
Definition criteria : Z * Z * Qc := ((2 + 1)%Z, 30%Z, Q2Qc (1 # 1000)).

(** [np.mgrid[0:c, 0:r]]: two planes of shape [(c, r)], the first holding
    the row index, the second the column index *)
Definition mgrid (c r : nat) : list matrix :=
  [ map (fun i => repeat (of_nat i) r) (seq 0 c);
    repeat (map of_nat (seq 0 r)) c ].

(** [.T] of an array of shape [(2, c, r)]: shape [(r, c, 2)] *)
Definition T3 (c r : nat) (a : list matrix) : list matrix :=
  map (fun j => map (fun i => map (fun plane => entry plane i j) a) (seq 0 c))
      (seq 0 r).

(** [.reshape(-1, 2)] of an array of shape [(r, c, 2)] *)
Definition reshape2 (a : list matrix) : matrix := concat a.

(** [np.mgrid[0:c, 0:r].T.reshape(-1, 2)] *)
Definition grid (c r : nat) : matrix := reshape2 (T3 c r (mgrid c r)).

(** [objp]: zeros of shape [(c*r, 3)] whose first two columns receive the
    scaled grid *)
Definition object_points (chessboard_size : nat * nat) (chess_square_size : Qc)
  : option matrix :=
  let c := fst chessboard_size in
  let r := snd chessboard_size in
  let objp := zeros (c * r) 3 in
  set_block 0 0 (c * r) 2
    (scale mm2m (scale chess_square_size (reshape2 (T3 c r (mgrid c r)))))
    objp.












(** the drawing and window calls of one loop iteration; the projected axes
    and the key that is read change neither the loop nor the result *)
Definition show (display_frame : bool) : M unit :=
  if display_frame then emit Imshow ;;; emit WaitKey else ret tt.

(** the [while not pose_found] loop, at most [fuel] iterations *)
Fixpoint pose_loop (fuel : nat) (camera : nat) (chessboard_size : nat * nat)
    (objp mtx : matrix) (display_frame : bool) : M (matrix * matrix) :=
  match fuel with
  | O => fun w => (OutOfFuel, w)
  | S fuel' =>
      img <- get_rgb camera ;;
      let gray := cvtColor img in
      let '(chessboard_found, corners) := findChessboardCorners gray chessboard_size in
      if chessboard_found then
        let corners2 := cornerSubPix gray corners (11, 11)%nat (-1, -1)%Z criteria in
        let '(pose_found, rot_vec, trasl_vec) := solvePnP objp corners2 mtx dist in
        let rot_matrix := Rodrigues rot_vec in
        show display_frame ;;;
        if pose_found then ret (rot_matrix, trasl_vec)
        else pose_loop fuel' camera chessboard_size objp mtx display_frame
      else
        show display_frame ;;;
        pose_loop fuel' camera chessboard_size objp mtx display_frame
  end.

Definition chessboard_pose_estimation (fuel : nat) (camera : nat)
    (chessboard_size : nat * nat) (chess_square_size : Qc)
    (display_frame : bool) : M (matrix * matrix) :=
  intr <- get_intrinsics camera ;;
  let mtx := camera_matrix intr in
  objp <- of_option ValueError (object_points chessboard_size chess_square_size) ;;
  (if display_frame then emit NamedWindow else ret tt) ;;;
  pose_loop fuel camera chessboard_size objp mtx display_frame.

(** ** cameras_extrinsic_calibration.py *)

(** [for i in range(n): camera.get_rgb()] *)
Fixpoint discard_frames (n : nat) (camera : nat) : M unit :=
  match n with
  | O => ret tt
  | S n' => get_rgb camera ;;; discard_frames n' camera
  end.

(** lines 25-27: the frames thrown away before anything is estimated *)
Fixpoint warm_up (cameras : list nat) : M unit :=
  match cameras with
  | [] => ret tt
  | camera :: rest => discard_frames 10 camera ;;; warm_up rest
  end.

(** lines 38-41: [for k in range(loops)] *)
Fixpoint sample_loop (fuel : nat) (camera : nat) (chess_size : nat * nat)
    (chess_square_size : Qc) (display_frame : bool)
    (k : nat) (rots trasls : list matrix) : M (list matrix * list matrix) :=
  match k with
  | O => ret (rots, trasls)
  | S k' =>
      p <- chessboard_pose_estimation fuel camera chess_size chess_square_size
             display_frame ;;
      sample_loop fuel camera chess_size chess_square_size display_frame k'
        (rots ++ [fst p]) (trasls ++ [snd p])
  end.

(** lines 33-45: the pose kept for one camera *)
Definition camera_pose (fuel : nat) (camera : nat) (chess_size : nat * nat)
    (chess_square_size : Qc) (loops : Z) (display_frame : bool)
  : M (matrix * matrix) :=
  if (loops =? 1)%Z then
    chessboard_pose_estimation fuel camera chess_size chess_square_size display_frame
  else
    s <- sample_loop fuel camera chess_size chess_square_size display_frame
           (Z.to_nat loops) [] [] ;;
    rot_mat <- of_option FloatNaN (mean0 (fst s)) ;;
    trasl_vec <- of_option FloatNaN (mean0 (snd s)) ;;
    ret (rot_mat, trasl_vec).

(** lines 49-51: [np.eye(4)] with the rotation and the translation written
    into its first three rows *)
Definition homogeneous (rot_mat trasl_vec : matrix) : option matrix :=
  match set_block 0 0 3 3 rot_mat (eye 4) with
  | Some h => set_block 0 3 3 1 trasl_vec h
  | None => None
  end.

(** lines 31-53: one homogeneous matrix per camera, in list order *)
Fixpoint homogeneous_matrices (fuel : nat) (cameras : list nat)
    (chess_size : nat * nat) (chess_square_size : Qc) (loops : Z)
    (display_frame : bool) : M (list matrix) :=
  match cameras with
  | [] => ret []
  | camera :: rest =>
      p <- camera_pose fuel camera chess_size chess_square_size loops display_frame ;;
      hom_mat <- of_option ValueError (homogeneous (fst p) (snd p)) ;;
      hs <- homogeneous_matrices fuel rest chess_size chess_square_size loops
              display_frame ;;
      ret (hom_mat :: hs)
  end.

(** lines 58-61: [H_ref . inv(hom_mat)] for every matrix of the list *)
Fixpoint relative (H_ref : matrix) (hs : list matrix) : option (list matrix) :=
  match hs with
  | [] => Some []
  | hom_mat :: rest =>
      match inv hom_mat with
      | None => None
      | Some H_inv =>
          match relative H_ref rest with
          | None => None
          | Some out => Some (matmul H_ref H_inv :: out)
          end
      end
  end.

(** lines 56-61 *)
Definition cam1_H_camX (hs : list matrix) : M (list matrix) :=
  match hs with
  | [] => raise IndexError
  | H_ref :: _ => of_option LinAlgError (relative H_ref hs)
  end.

Definition extrinsic_calibration (fuel : nat) (cameras : list nat)
    (chess_size : nat * nat) (chess_square_size : Qc) (loops : Z)
    (display_frame : bool) : M (list matrix) :=
  if (2 <=? length cameras)%nat then
    warm_up cameras ;;;
    hs <- homogeneous_matrices fuel cameras chess_size chess_square_size loops
            display_frame ;;
    out <- cam1_H_camX hs ;;
    ret (tl out)
  else raise AssertionError.

(** ** Vocabulary for statements about runs *)

(** what one iteration of the loop makes of a frame: the pose it returns,
    or nothing when the loop goes on *)
Definition solve_frame (chessboard_size : nat * nat) (objp mtx : matrix)
    (img : Image) : option (matrix * matrix) :=
  let gray := cvtColor img in
  let '(chessboard_found, corners) := findChessboardCorners gray chessboard_size in
  if chessboard_found then
    let corners2 := cornerSubPix gray corners (11, 11)%nat (-1, -1)%Z criteria in
    let '(pose_found, rot_vec, trasl_vec) := solvePnP objp corners2 mtx dist in
    if pose_found then Some (Rodrigues rot_vec, trasl_vec) else None
  else None.

(** the pose the estimator reads off frame [img] of camera [cam] *)
Definition estimate_of (cam : Camera) (chessboard_size : nat * nat)
    (chess_square_size : Qc) (img : Image) : option (matrix * matrix) :=
  match object_points chessboard_size chess_square_size with
  | Some objp =>
      solve_frame chessboard_size objp (camera_matrix (intrinsics cam)) img
  | None => None
  end.

(** camera [c] keeps delivering frames from which a pose is found *)
Definition live (w : World) (chessboard_size : nat * nat)
    (chess_square_size : Qc) (c : nat) : Prop :=
  forall k, exists j, (k <= j)%nat /\
    estimate_of (cameras_of w c) chessboard_size chess_square_size
      (frames (cameras_of w c) j) <> None.

(** [ps] are the poses returned by [length ps] successive calls of the
    estimator on one camera, from store [w] to store [w'] *)
Inductive sampled (fuel camera : nat) (chess_size : nat * nat)
    (chess_square_size : Qc) (display_frame : bool)
  : World -> list (matrix * matrix) -> World -> Prop :=
  | sampled_nil w : sampled fuel camera chess_size chess_square_size display_frame w [] w
  | sampled_cons w p w1 ps w2 :
      chessboard_pose_estimation fuel camera chess_size chess_square_size
        display_frame w = (Ok p, w1) ->
      sampled fuel camera chess_size chess_square_size display_frame w1 ps w2 ->
      sampled fuel camera chess_size chess_square_size display_frame w (p :: ps) w2.

(** a computation that returns [a] and leaves [w'] whenever its loops are
    given enough iterations *)
Definition settles {A} (f : nat -> M A) (w : World) (a : A) (w' : World) : Prop :=
  exists fuel0, forall fuel, (fuel0 <= fuel)%nat -> f fuel w = (Ok a, w').

Definition show_events (display_frame : bool) : list Event :=
  if display_frame then [Imshow; WaitKey] else [].

(** the store after one captured frame has been handled *)
Definition after_frame (display_frame : bool) (camera : nat) (w : World) : World :=
  {| cameras_of := cameras_of w;
     grabbed := fun c => if Nat.eqb c camera then S (grabbed w c) else grabbed w c;
     trace := trace w ++ GetRgb camera :: show_events display_frame |}.

(** the store when the loop is entered: the intrinsics have been read and
    the window, if any, is open *)
Definition before_loop (display_frame : bool) (camera : nat) (w : World) : World :=
  {| cameras_of := cameras_of w;
     grabbed := grabbed w;
     trace := trace w ++ GetIntrinsics camera
                :: (if display_frame then [NamedWindow] else []) |}.

(** the frames captured by lines 25-27 *)
Definition warm_events (cameras : list nat) : list Event :=
  flat_map (fun c => repeat (GetRgb c) 10) cameras.

(** a computation only ever appends to the trace *)
Definition grows {A} (m : M A) : Prop :=
  forall w, exists evs, trace (snd (m w)) = trace w ++ evs.

(** lines 25-53: warm-up, then one homogeneous matrix per camera *)
Definition assemble (fuel : nat) (cameras : list nat) (chess_size : nat * nat)
    (chess_square_size : Qc) (loops : Z) (display_frame : bool) : M (list matrix) :=
  warm_up cameras ;;;
  homogeneous_matrices fuel cameras chess_size chess_square_size loops display_frame.

(** [hom] is the matrix lines 33-52 assemble for [camera] from some store *)
Definition assembled_for (fuel : nat) (chess_size : nat * nat)
    (chess_square_size : Qc) (loops : Z) (display_frame : bool)
    (camera : nat) (hom : matrix) : Prop :=
  exists p w w',
    camera_pose fuel camera chess_size chess_square_size loops display_frame w
    = (Ok p, w') /\
    homogeneous (fst p) (snd p) = Some hom.

(** the events a run may add when it works on the cameras [cs] with the
    display switched as [display_frame], all of them satisfying [Q] *)
Definition allowed (cs : list nat) (display_frame : bool) (Q : Event -> Prop) : Prop :=
  (forall c, In c cs -> Q (GetRgb c) /\ Q (GetIntrinsics c)) /\
  (display_frame = true -> Q NamedWindow /\ Q Imshow /\ Q WaitKey).

(** a computation advances the streams of the cameras [cs] only and adds
    only events satisfying [Q] to the trace, whatever its outcome *)
Definition keeps (cs : list nat) (Q : Event -> Prop) {A} (m : M A) : Prop :=
  forall w,
    cameras_of (snd (m w)) = cameras_of w /\
    (forall c, ~ In c cs -> grabbed (snd (m w)) c = grabbed w c) /\
    (forall c, (grabbed w c <= grabbed (snd (m w)) c)%nat) /\
    exists evs, trace (snd (m w)) = trace w ++ evs /\ Forall Q evs.

(** two stores with the same camera objects, each stream at the same frame *)
Definition same_devices (w1 w2 : World) : Prop :=
  cameras_of w1 = cameras_of w2 /\ forall c, grabbed w1 c = grabbed w2 c.

(** two computations that, from stores with the same devices, end with
    the same outcome and again the same devices *)
Definition agree {A} (m1 m2 : M A) : Prop :=
  forall w1 w2, same_devices w1 w2 ->
    fst (m1 w1) = fst (m2 w2) /\ same_devices (snd (m1 w1)) (snd (m2 w2)).

End Calibration.

(** ** Vocabulary for statements about arrays and poses *)

(** the sum of the [(i, j)] entries of a list of arrays *)
Definition entry_sum (ms : list matrix) (i j : nat) : Qc :=
  fold_right Qcplus 0 (map (fun m => entry m i j) ms).

(** a 4x4 array whose last row is [[0; 0; 0; 1]] *)
Definition affine (m : matrix) : Prop :=
  exists a b c x d e f y g h i z,
    m = [[a; b; c; x]; [d; e; f; y]; [g; h; i; z]; [0; 0; 0; 1]].

(** [rot . X + t] for a point [X] given as a row [[x; y; z]] and a 3x1
    translation *)
Definition transform_point (rot trasl : matrix) (X : list Qc) : list Qc :=
  map2 Qcplus (map (fun row => dot row X) rot) (col 0 trasl).

(** pinhole projection of a camera-frame point through the camera matrix,
    without distortion *)
Definition project (mtx : matrix) (p : list Qc) : list Qc :=
  let q := map (fun row => dot row p) mtx in
  [nth 0 q 0 / nth 2 q 0; nth 1 q 0 / nth 2 q 0].

Definition Qc_eqb (x y : Qc) : bool := if Qc_eq_dec x y then true else false.

Fixpoint list_eqb {A} (eqb : A -> A -> bool) (u v : list A) : bool :=
  match u, v with
  | [], [] => true
  | x :: u', y :: v' => eqb x y && list_eqb eqb u' v'
  | _, _ => false
  end.

Definition row_eqb : list Qc -> list Qc -> bool := list_eqb Qc_eqb.
Definition matrix_eqb : matrix -> matrix -> bool := list_eqb row_eqb.
Definition matrices_eqb : list matrix -> list matrix -> bool := list_eqb matrix_eqb.

(** the list [l] with the entries at positions [i] and [j] exchanged *)
Definition swap {A} (d : A) (i j : nat) (l : list A) : list A :=
  map (fun k => nth (if Nat.eqb k i then j else if Nat.eqb k j then i else k) l d)
      (seq 0 (length l)).

(** the pose [(rot, trasl)] sends every object point onto its image point *)
Fixpoint reprojects (mtx rot trasl objp corners : matrix) : bool :=
  match objp, corners with
  | [], [] => true
  | X :: objp', uv :: corners' =>
      row_eqb (project mtx (transform_point rot trasl X)) uv
      && reprojects mtx rot trasl objp' corners'
  | _, _ => false
  end.

(** a proper rotation up to [tol]: determinant near 1, [R^T R] near the
    identity *)
Definition Qc_abs (x : Qc) : Qc := if Qclt_le_dec x 0 then - x else x.

Definition Qc_leb (x y : Qc) : bool := if Qclt_le_dec y x then false else true.

Definition close (tol : Qc) (a b : matrix) : bool :=
  forallb (fun i => forallb (fun j => Qc_leb (Qc_abs (entry a i j - entry b i j)) tol)
                            (seq 0 3)) (seq 0 3).

Definition is_rotation (tol : Qc) (rot : matrix) : bool :=
  Qc_leb (Qc_abs (det 3 rot - 1)) tol
  && close tol (matmul (transpose rot) rot) (eye 3).

(** ** A rig of three simulated cameras

    An image is summarised by the pixel positions of the chessboard
    corners seen in it (none when the board is out of view).  The solver
    chooses among the poses of the scene: the board one metre in front of
    the camera, either upright or turned a quarter turn about the optical
    axis; a rotation vector [(0, 0, k)] counts quarter turns. *)
Module Rig.

Definition quarter_turn : matrix := [[0; - (1); 0]; [1; 0; 0]; [0; 0; 1]].

Definition rodrigues (v : matrix) : matrix :=
  if Qc_eqb (entry v 2 0) 0 then eye 3 else quarter_turn.

Definition candidates : list (matrix * matrix) :=
  [ ([[0]; [0]; [0]], [[0]; [0]; [1]]);
    ([[0]; [0]; [1]], [[0]; [0]; [1]]) ].

Fixpoint solve (objp corners mtx : matrix) (cands : list (matrix * matrix))
  : bool * matrix * matrix :=
  match cands with
  | [] => (false, zeros 3 1, zeros 3 1)
  | (rvec, tvec) :: rest =>
      if reprojects mtx (rodrigues rvec) tvec objp corners
      then (true, rvec, tvec)
      else solve objp corners mtx rest
  end.

Definition find_corners (gray : matrix) (size : nat * nat) : bool * matrix :=
  (has_shape (fst size * snd size) 2 gray && negb (Nat.eqb (length gray) 0), gray).

Lemma rodrigues_shape v : has_shape 3 3 (rodrigues v) = true.
Proof. unfold rodrigues. destruct (Qc_eqb _ _); reflexivity. Qed.

Lemma solve_shape objp corners mtx cands rvec tvec :
  Forall (fun c => has_shape 3 1 (snd c) = true) cands ->
  solve objp corners mtx cands = (true, rvec, tvec) ->
  has_shape 3 1 tvec = true.
Proof.
  induction 1 as [|[rv tv] rest Hc _ IH]; simpl; [discriminate|].
  destruct (reprojects _ _ _ _ _); [|exact IH].
  intros E; inversion E; subst. exact Hc.
Qed.

Lemma candidates_shape : Forall (fun c => has_shape 3 1 (snd c) = true) candidates.
Proof. repeat constructor. Qed.

#[export] Instance simulated : OpenCV := {|
  Image := matrix;
  Gray := matrix;
  cvtColor := fun img => img;
  findChessboardCorners := find_corners;
  cornerSubPix := fun _ corners _ _ _ => corners;
  solvePnP := fun objp corners mtx _ => solve objp corners mtx candidates;
  Rodrigues := rodrigues;
  Rodrigues_shape := rodrigues_shape;
  solvePnP_shape := fun objp corners mtx _ rvec tvec =>
    solve_shape objp corners mtx candidates rvec tvec candidates_shape
|}.

(** a 2x2 board with squares of one metre *)
Definition board : nat * nat := (2, 2)%nat.
Definition square : Qc := Q2Qc 1000.

Definition upright : matrix := [[0; 0]; [1; 0]; [0; 1]; [1; 1]].
Definition turned : matrix := [[0; 0]; [0; 1]; [- (1); 0]; [- (1); 1]].
Definition nothing : matrix := [].

Definition pinhole : Intrinsics := {| fx := 1; fy := 1; px := 0; py := 0 |}.

(** camera 0 always sees the board upright; camera 1 sees it upright and
    turned in alternation; every other camera loses it in one frame out
    of three and sees it turned otherwise *)
Definition device (c : nat) : Camera :=
  match c with
  | 0%nat => {| intrinsics := pinhole; frames := fun _ => upright |}
  | 1%nat => {| intrinsics := pinhole;
                frames := fun n => if Nat.even n then upright else turned |}
  | _ => {| intrinsics := pinhole;
            frames := fun n => if Nat.eqb (n mod 3) 1 then nothing else turned |}
  end.

Definition start : World :=
  {| cameras_of := device; grabbed := fun _ => 0%nat; trace := [] |}.

(** the rig when every camera has delivered ten frames *)
Definition warmed : World :=
  {| cameras_of := device; grabbed := fun _ => 10%nat; trace := [] |}.

(** what the rig is expected to produce *)
Definition ahead : matrix := [[0]; [0]; [1]].

Definition hom_upright : matrix :=
  [[1; 0; 0; 0]; [0; 1; 0; 0]; [0; 0; 1; 1]; [0; 0; 0; 1]].

Definition hom_turned : matrix :=
  [[0; - (1); 0; 0]; [1; 0; 0; 0]; [0; 0; 1; 1]; [0; 0; 0; 1]].

(** after the warm-up cameras 0 and 1 see the board upright, camera 2
    sees it turned *)
Definition assembled (c : nat) : matrix :=
  match c with
  | 2%nat => hom_turned
  | _ => hom_upright
  end.

(** [hom_upright . inverse(hom_turned)] *)
Definition turned_seen_from_upright : matrix :=
  [[0; 1; 0; 0]; [- (1); 0; 0; 0]; [0; 0; 1; 0]; [0; 0; 0; 1]].

(** the entry-wise mean of the identity and of the quarter turn *)
Definition blend : matrix :=
  [[Q2Qc (1 # 2); - Q2Qc (1 # 2); 0]; [Q2Qc (1 # 2); Q2Qc (1 # 2); 0]; [0; 0; 1]].

End Rig.

(** ** A rig whose second camera sees the board flipped

    As above, but the board is either upright or turned half a turn about
    the optical axis; a rotation vector [(0, 0, k)] counts half turns. *)
Module Flip.

Definition half_turn : matrix := [[- (1); 0; 0]; [0; - (1); 0]; [0; 0; 1]].

Definition rodrigues (v : matrix) : matrix :=
  if Qc_eqb (entry v 2 0) 0 then eye 3 else half_turn.

Fixpoint solve (objp corners mtx : matrix) (cands : list (matrix * matrix))
  : bool * matrix * matrix :=
  match cands with
  | [] => (false, zeros 3 1, zeros 3 1)
  | (rvec, tvec) :: rest =>
      if reprojects mtx (rodrigues rvec) tvec objp corners
      then (true, rvec, tvec)
      else solve objp corners mtx rest
  end.

Lemma half_turn_shape v : has_shape 3 3 (rodrigues v) = true.
Proof. unfold rodrigues. destruct (Qc_eqb _ _); reflexivity. Qed.

Lemma flip_solve_shape objp corners mtx cands rvec tvec :
  Forall (fun c => has_shape 3 1 (snd c) = true) cands ->
  solve objp corners mtx cands = (true, rvec, tvec) ->
  has_shape 3 1 tvec = true.
Proof.
  induction 1 as [|[rv tv] rest Hc _ IH]; simpl; [discriminate|].
  destruct (reprojects _ _ _ _ _); [|exact IH].
  intros E; inversion E; subst. exact Hc.
Qed.

#[export] Instance simulated : OpenCV := {|
  Image := matrix;
  Gray := matrix;
  cvtColor := fun img => img;
  findChessboardCorners := Rig.find_corners;
  cornerSubPix := fun _ corners _ _ _ => corners;
  solvePnP := fun objp corners mtx _ => solve objp corners mtx Rig.candidates;
  Rodrigues := rodrigues;
  Rodrigues_shape := half_turn_shape;
  solvePnP_shape := fun objp corners mtx _ rvec tvec =>
    flip_solve_shape objp corners mtx Rig.candidates rvec tvec Rig.candidates_shape
|}.

Definition flipped : matrix := [[0; 0]; [- (1); 0]; [0; - (1)]; [- (1); - (1)]].

(** camera 0 always sees the board upright; every other camera sees it
    upright and flipped in alternation *)
Definition device (c : nat) : Camera :=
  match c with
  | 0%nat => {| intrinsics := Rig.pinhole; frames := fun _ => Rig.upright |}
  | _ => {| intrinsics := Rig.pinhole;
            frames := fun n => if Nat.even n then Rig.upright else flipped |}
  end.

Definition start : World :=
  {| cameras_of := device; grabbed := fun _ => 0%nat; trace := [] |}.


End Flip.

(** ** Arrays: shapes and entries *)

#[local] Arguments Qcplus : simpl never.
#[local] Arguments Qcmult : simpl never.
#[local] Arguments Qcopp : simpl never.
#[local] Arguments Qcinv : simpl never.
#[local] Arguments Qcminus : simpl never.
#[local] Arguments Qcdiv : simpl never.
#[local] Arguments Q2Qc : simpl never.

Lemma has_shape_spec r c m :
  has_shape r c m = true <-> length m = r /\ Forall (fun row => length row = c) m.
Proof.
  unfold has_shape. rewrite andb_true_iff, Nat.eqb_eq, forallb_forall, Forall_forall.
  split; intros [H1 H2]; split; auto; intros x Hx; apply Nat.eqb_eq; auto.
Qed.

Lemma shape_3_3 m :
  has_shape 3 3 m = true ->
  exists a b c d e f g h i, m = [[a; b; c]; [d; e; f]; [g; h; i]].
Proof.
  intros H. apply has_shape_spec in H. destruct H as [Hl Hr].
  destruct m as [|r0 [|r1 [|r2 [|? ?]]]]; try discriminate.
  inversion Hr as [|? ? H0 Hr1]; subst. inversion Hr1 as [|? ? H1 Hr2]; subst.
  inversion Hr2 as [|? ? H2 _]; subst.
  destruct r0 as [|a [|b [|c [|? ?]]]]; try discriminate.
  destruct r1 as [|d [|e [|f [|? ?]]]]; try discriminate.
  destruct r2 as [|g [|h [|i [|? ?]]]]; try discriminate.
  now exists a, b, c, d, e, f, g, h, i.
Qed.

Lemma shape_3_1 m :
  has_shape 3 1 m = true -> exists x y z, m = [[x]; [y]; [z]].
Proof.
  intros H. apply has_shape_spec in H. destruct H as [Hl Hr].
  destruct m as [|r0 [|r1 [|r2 [|? ?]]]]; try discriminate.
  inversion Hr as [|? ? H0 Hr1]; subst. inversion Hr1 as [|? ? H1 Hr2]; subst.
  inversion Hr2 as [|? ? H2 _]; subst.
  destruct r0 as [|x [|? ?]]; try discriminate.
  destruct r1 as [|y [|? ?]]; try discriminate.
  destruct r2 as [|z [|? ?]]; try discriminate.
  now exists x, y, z.
Qed.

Lemma map2_length {A B C} (f : A -> B -> C) l l' :
  length (map2 f l l') = Nat.min (length l) (length l').
Proof.
  revert l'; induction l as [|x l IH]; intros [|y l']; simpl; auto.
Qed.

Lemma map2_nth {A B C} (f : A -> B -> C) l l' i da db dc :
  (i < length l)%nat -> (i < length l')%nat ->
  nth i (map2 f l l') dc = f (nth i l da) (nth i l' db).
Proof.
  revert l' i; induction l as [|x l IH]; intros [|y l'] [|i]; simpl;
    intros H1 H2; try lia; auto.
  apply IH; lia.
Qed.

Lemma has_shape_add r c a b :
  has_shape r c a = true -> has_shape r c b = true ->
  has_shape r c (add a b) = true.
Proof.
  rewrite !has_shape_spec. intros [La Fa] [Lb Fb]. unfold add. split.
  - rewrite map2_length. lia.
  - subst r. revert b Lb Fb.
    induction a as [|x a IH]; intros [|y b] Lb Fb; simpl in *; try discriminate;
      constructor.
    + inversion Fa; inversion Fb; subst. rewrite map2_length. lia.
    + inversion Fa; inversion Fb; subst. apply IH; auto.
Qed.

Lemma has_shape_scale r c k a :
  has_shape r c a = true -> has_shape r c (scale k a) = true.
Proof.
  rewrite !has_shape_spec. intros [La Fa]. unfold scale. split.
  - now rewrite length_map.
  - apply Forall_map. eapply Forall_impl; [|exact Fa].
    intros row Hr. simpl. now rewrite length_map.
Qed.

Lemma entry_add r c a b i j :
  has_shape r c a = true -> has_shape r c b = true ->
  (i < r)%nat -> (j < c)%nat ->
  entry (add a b) i j = entry a i j + entry b i j.
Proof.
  rewrite !has_shape_spec. intros [La Fa] [Lb Fb] Hi Hj.
  unfold entry, add.
  rewrite (map2_nth _ a b i [] [] []) by lia.
  rewrite Forall_forall in Fa, Fb.
  apply map2_nth.
  - rewrite Fa; [lia|]. apply nth_In. lia.
  - rewrite Fb; [lia|]. apply nth_In. lia.
Qed.

Lemma nth_map_fix {A} (f : A -> A) (d : A) l n :
  f d = d -> nth n (map f l) d = f (nth n l d).
Proof.
  intros Hd. revert n; induction l as [|x l IH]; intros [|n]; simpl; auto.
Qed.

Lemma entry_scale k a i j : entry (scale k a) i j = entry a i j * k.
Proof.
  unfold entry, scale.
  rewrite (nth_map_fix (map (fun x => x * k)) []) by reflexivity.
  apply (nth_map_fix (fun x => x * k)). ring.
Qed.

Lemma fold_add_shape r c rest : forall m,
  has_shape r c m = true ->
  Forall (fun a => has_shape r c a = true) rest ->
  has_shape r c (fold_left add rest m) = true.
Proof.
  induction rest as [|a rest IH]; intros m Hm Hr; simpl; auto.
  inversion Hr; subst. apply IH; auto. now apply has_shape_add.
Qed.

Lemma fold_add_entry r c rest i j : forall m,
  has_shape r c m = true ->
  Forall (fun a => has_shape r c a = true) rest ->
  (i < r)%nat -> (j < c)%nat ->
  entry (fold_left add rest m) i j = entry m i j + entry_sum rest i j.
Proof.
  induction rest as [|a rest IH]; intros m Hm Hr Hi Hj; simpl.
  - unfold entry_sum; simpl. ring.
  - inversion Hr; subst. rewrite IH; auto using has_shape_add.
    rewrite (entry_add r c); auto. unfold entry_sum; simpl. ring.
Qed.

(** [np.mean(ms, 0)] of a non-empty list of arrays of one shape is their
    entry-wise arithmetic mean, and has that shape *)
Lemma mean0_spec r c ms :
  ms <> [] ->
  Forall (fun a => has_shape r c a = true) ms ->
  exists m, mean0 ms = Some m /\ has_shape r c m = true /\
    forall i j, (i < r)%nat -> (j < c)%nat ->
      entry m i j = entry_sum ms i j / of_nat (length ms).
Proof.
  destruct ms as [|m0 rest]; [congruence|]. intros _ H. inversion H; subst.
  eexists; split; [reflexivity|]. split.
  - apply has_shape_scale, fold_add_shape; auto.
  - intros i j Hi Hj. rewrite entry_scale, (fold_add_entry r c); auto.
Qed.

(** ** Homogeneous matrices and their inverse *)

Ltac arrays :=
  unfold inv, adjugate, cofactor, minor, drop_nth, sign, matmul, transpose,
         eye, scale, col, ncols, entry;
  cbn.

Lemma homogeneous_form a b c d e f g h i x y z :
  homogeneous [[a; b; c]; [d; e; f]; [g; h; i]] [[x]; [y]; [z]]
  = Some [[a; b; c; x]; [d; e; f; y]; [g; h; i; z]; [0; 0; 0; 1]].
Proof. reflexivity. Qed.

Lemma homogeneous_shape rot trasl :
  has_shape 3 3 rot = true -> has_shape 3 1 trasl = true ->
  exists a b c d e f g h i x y z,
    rot = [[a; b; c]; [d; e; f]; [g; h; i]] /\ trasl = [[x]; [y]; [z]] /\
    homogeneous rot trasl
    = Some [[a; b; c; x]; [d; e; f; y]; [g; h; i; z]; [0; 0; 0; 1]].
Proof.
  intros Hr Ht.
  destruct (shape_3_3 _ Hr) as (a & b & c & d & e & f & g & h & i & ->).
  destruct (shape_3_1 _ Ht) as (x & y & z & ->).
  exists a, b, c, d, e, f, g, h, i, x, y, z. auto using homogeneous_form.
Qed.

Lemma homogeneous_inv rot trasl hom :
  homogeneous rot trasl = Some hom ->
  has_shape 3 3 rot = true /\ has_shape 3 1 trasl = true.
Proof.
  unfold homogeneous, set_block.
  destruct (has_shape 3 3 rot); [|discriminate].
  destruct (has_shape 3 1 trasl); [auto|discriminate].
Qed.

Lemma det_homogeneous a b c d e f g h i x y z :
  det 4 [[a; b; c; x]; [d; e; f; y]; [g; h; i; z]; [0; 0; 0; 1]]
  = det 3 [[a; b; c]; [d; e; f]; [g; h; i]].
Proof. arrays. ring. Qed.

(** closes [E = t] for [E] linear in the inverse [u] of the determinant *)
Ltac by_inverse Hu :=
  match type of Hu with
  | ?D * ?u = 1 =>
      match goal with
      | |- _ = ?t => transitivity (t * (D * u)); [ring | rewrite Hu; ring]
      end
  end.

Lemma inv_homogeneous a b c d e f g h i x y z :
  let hom := [[a; b; c; x]; [d; e; f; y]; [g; h; i; z]; [0; 0; 0; 1]] in
  det 3 [[a; b; c]; [d; e; f]; [g; h; i]] <> 0 ->
  exists H_inv, inv hom = Some H_inv /\ affine H_inv /\
    matmul hom H_inv = eye 4 /\ matmul H_inv hom = eye 4.
Proof.
  intros hom Hd. unfold inv.
  change (length hom) with 4%nat.
  rewrite <- (det_homogeneous a b c d e f g h i x y z) in Hd. fold hom in Hd.
  destruct (Qc_eq_dec (det 4 hom) 0) as [E|_]; [contradiction|].
  eexists; split; [reflexivity|].
  assert (Hu : det 4 hom * / det 4 hom = 1) by (apply Qcmult_inv_r; exact Hd).
  clear Hd. set (u := / det 4 hom) in *. clearbody u.
  subst hom. revert Hu. arrays. intros Hu.
  split; [|split].
  - do 12 eexists.
    repeat (f_equal; try reflexivity; try ring; try by_inverse Hu).
  - repeat (f_equal; try ring; try by_inverse Hu).
  - repeat (f_equal; try ring; try by_inverse Hu).
Qed.

Lemma matmul_affine a b : affine a -> affine b -> affine (matmul a b).
Proof.
  intros (a0 & a1 & a2 & a3 & a4 & a5 & a6 & a7 & a8 & a9 & a10 & a11 & ->)
         (b0 & b1 & b2 & b3 & b4 & b5 & b6 & b7 & b8 & b9 & b10 & b11 & ->).
  arrays. do 12 eexists. repeat (f_equal; try reflexivity; try ring).
Qed.

Lemma affine_last_row m : affine m -> has_shape 4 4 m = true /\ nth 3 m [] = [0; 0; 0; 1].
Proof.
  intros (a & b & c & x & d & e & f & y & g & h & i & z & ->). split; reflexivity.
Qed.

Lemma homogeneous_affine rot trasl hom :
  homogeneous rot trasl = Some hom -> affine hom.
Proof.
  intros H. destruct (homogeneous_inv _ _ _ H) as [Hr Ht].
  destruct (homogeneous_shape _ _ Hr Ht)
    as (a & b & c & d & e & f & g & h & i & x & y & z & -> & -> & E).
  rewrite E in H. inversion H; subst. now exists a, b, c, x, d, e, f, y, g, h, i, z.
Qed.

(** ** The object points of the chessboard *)

Lemma of_nat_S n : of_nat (S n) = of_nat n + 1.
Proof.
  unfold of_nat. apply Qc_is_canon. unfold Qcplus, Q2Qc. cbn [this].
  rewrite !Qred_correct, Nat2Z.inj_succ. unfold Z.succ.
  rewrite inject_Z_plus. reflexivity.
Qed.

Lemma nth_map_seq {A} (G : nat -> A) n j d :
  (j < n)%nat -> nth j (map G (seq 0 n)) d = G j.
Proof.
  intros H. rewrite (nth_indep _ d (G 0%nat)) by now rewrite length_map, length_seq.
  rewrite map_nth, seq_nth; auto.
Qed.

Lemma nth_map_lt {A B} (f : A -> B) l n d d' :
  (n < length l)%nat -> nth n (map f l) d = f (nth n l d').
Proof.
  revert n; induction l as [|x l IH]; intros [|n] H; simpl in *; try lia; auto.
  apply IH. lia.
Qed.


Lemma length_concat_uniform {A} (c : nat) (L : list (list A)) :
  Forall (fun l => length l = c) L -> length (concat L) = (length L * c)%nat.
Proof.
  induction 1 as [|l L Hl _ IH]; simpl; auto.
  rewrite length_app, IH, Hl. reflexivity.
Qed.


Lemma T3_rows c r :
  Forall (fun l => length l = c) (T3 c r (mgrid c r)).
Proof.
  unfold T3. apply Forall_map, Forall_forall. intros j _.
  now rewrite length_map, length_seq.
Qed.

Lemma grid_length c r : length (grid c r) = (c * r)%nat.
Proof.
  unfold grid, reshape2. rewrite (length_concat_uniform c) by apply T3_rows.
  unfold T3. rewrite length_map, length_seq. lia.
Qed.


Lemma grid_rows c r : Forall (fun row => length row = 2%nat) (grid c r).
Proof.
  unfold grid, reshape2, T3. apply Forall_concat, Forall_map, Forall_forall.
  intros j _. apply Forall_map, Forall_forall. intros i _.
  now rewrite length_map.
Qed.

Lemma splice_zeros (g : matrix) :
  Forall (fun row => length row = 2%nat) g ->
  map2 (fun s d => splice 0 s d) g (repeat [0; 0; 0] (length g))
  = map (fun s => s ++ [0]) g.
Proof.
  induction 1 as [|s g Hs _ IH]; simpl; auto.
  rewrite IH. f_equal. unfold splice. rewrite Hs. reflexivity.
Qed.

Lemma object_points_eq c r sq :
  object_points (c, r) sq
  = Some (map (fun s => s ++ [0]) (scale mm2m (scale sq (grid c r)))).
Proof.
  unfold object_points, set_block. cbn [fst snd].
  fold (grid c r). set (g := scale mm2m (scale sq (grid c r))).
  assert (Hg : has_shape (c * r) 2 g = true).
  { subst g. do 2 apply has_shape_scale. apply has_shape_spec.
    split; [apply grid_length | apply grid_rows]. }
  rewrite Hg. apply has_shape_spec in Hg. destruct Hg as [Hl Hr].
  f_equal. cbn [firstn skipn Nat.add app]. unfold zeros. cbn [repeat].
  set (z := repeat [0; 0; 0] (c * r)).
  assert (Hz : length z = (c * r)%nat) by apply repeat_length.
  rewrite <- Hz, firstn_all, skipn_all, app_nil_r. subst z.
  rewrite <- Hl. now apply splice_zeros.
Qed.


(** ** Runs of the estimator and of the calibration *)

Lemma calls_app a b : calls (a ++ b) = calls a ++ calls b.
Proof. apply flat_map_app. Qed.

Lemma captures_app c a b : captures c (a ++ b) = (captures c a + captures c b)%nat.
Proof. unfold captures. now rewrite filter_app, length_app. Qed.

Section Runs.

Context {cv : OpenCV}.

Notation "x <- m ;; k" := (bind m (fun x => k))
  (at level 61, m at next level, right associativity).
Notation "m ;;; k" := (bind m (fun _ => k))
  (at level 61, right associativity).

Lemma settles_bind {A B} (f : nat -> M A) (k : nat -> A -> M B) w a w1 b w2 :
  settles f w a w1 ->
  settles (fun fuel => k fuel a) w1 b w2 ->
  settles (fun fuel => bind (f fuel) (k fuel)) w b w2.
Proof.
  intros [n1 H1] [n2 H2]. exists (Nat.max n1 n2). intros fuel Hf.
  unfold bind. rewrite H1 by lia. apply H2. lia.
Qed.

Lemma settles_const {A} (m : M A) w a w' :
  m w = (Ok a, w') -> settles (fun _ => m) w a w'.
Proof. intros H. exists 0%nat. auto. Qed.

Lemma pose_loop_S fuel camera size objp mtx display_frame w :
  pose_loop (S fuel) camera size objp mtx display_frame w =
  match solve_frame size objp mtx (frames (cameras_of w camera) (grabbed w camera)) with
  | Some p => (Ok p, after_frame display_frame camera w)
  | None => pose_loop fuel camera size objp mtx display_frame
              (after_frame display_frame camera w)
  end.
Proof.
  unfold solve_frame, after_frame. simpl. unfold bind at 1. unfold get_rgb at 1.
  destruct (findChessboardCorners _ _) as [found corners].
  destruct found.
  - destruct (solvePnP _ _ _ _) as [[pose_found rot_vec] trasl_vec].
    destruct pose_found, display_frame; unfold bind, show, emit, ret; simpl;
      rewrite <- ?app_assoc; simpl; try reflexivity;
      rewrite ?app_nil_r; reflexivity.
  - destruct display_frame; unfold bind, show, emit, ret; simpl;
      rewrite <- ?app_assoc; simpl; try reflexivity;
      rewrite ?app_nil_r; reflexivity.
Qed.

Lemma pose_loop_inv camera size objp mtx display_frame fuel : forall w p w',
  pose_loop fuel camera size objp mtx display_frame w = (Ok p, w') ->
  exists j evs,
    (grabbed w camera <= j)%nat /\
    solve_frame size objp mtx (frames (cameras_of w camera) j) = Some p /\
    cameras_of w' = cameras_of w /\
    trace w' = trace w ++ evs /\ calls evs = [] /\ (1 <= captures camera evs)%nat.
Proof.
  induction fuel as [|fuel IH]; intros w p w' H; [discriminate|].
  rewrite pose_loop_S in H.
  destruct (solve_frame _ _ _ _) as [p0|] eqn:E.
  - inversion H; subst. exists (grabbed w camera), (GetRgb camera :: show_events display_frame).
    repeat split; auto.
    + destruct display_frame; reflexivity.
    + unfold captures. simpl. rewrite Nat.eqb_refl. simpl. lia.
  - apply IH in H. destruct H as (j & evs & Hj & Hs & Hc & Ht & Hcalls & Hcap).
    simpl in Hj, Hs, Hc, Ht. rewrite Nat.eqb_refl in Hj.
    exists j, ((GetRgb camera :: show_events display_frame) ++ evs).
    repeat split; auto; try lia.
    + rewrite Ht, <- app_assoc. reflexivity.
    + rewrite calls_app, Hcalls. destruct display_frame; reflexivity.
    + rewrite captures_app. lia.
Qed.

Lemma pose_loop_total camera size objp mtx display_frame n : forall w,
  (exists j, (grabbed w camera <= j <= grabbed w camera + n)%nat /\
     solve_frame size objp mtx (frames (cameras_of w camera) j) <> None) ->
  exists p w', forall fuel, (n < fuel)%nat ->
    pose_loop fuel camera size objp mtx display_frame w = (Ok p, w').
Proof.
  induction n as [|n IH]; intros w (j & Hj & Hs).
  - assert (j = grabbed w camera) by lia. subst j.
    destruct (solve_frame _ _ _ _) as [p|] eqn:E; [|congruence].
    exists p, (after_frame display_frame camera w). intros [|fuel] Hf; [lia|].
    now rewrite pose_loop_S, E.
  - destruct (solve_frame size objp mtx
                (frames (cameras_of w camera) (grabbed w camera))) as [p|] eqn:E.
    + exists p, (after_frame display_frame camera w). intros [|fuel] Hf; [lia|].
      now rewrite pose_loop_S, E.
    + destruct (IH (after_frame display_frame camera w)) as (p & w' & Hp).
      { exists j. simpl. rewrite Nat.eqb_refl. split; [|exact Hs].
        assert (j <> grabbed w camera) by (intros ->; congruence). lia. }
      exists p, w'. intros [|fuel] Hf; [lia|].
      rewrite pose_loop_S, E. apply Hp. lia.
Qed.

Lemma object_points_some size sq : exists objp, object_points size sq = Some objp.
Proof. destruct size as [c r]. eexists. apply object_points_eq. Qed.

Lemma estimation_unfold fuel camera size sq display_frame w objp :
  object_points size sq = Some objp ->
  chessboard_pose_estimation fuel camera size sq display_frame w
  = pose_loop fuel camera size objp (camera_matrix (intrinsics (cameras_of w camera)))
      display_frame (before_loop display_frame camera w).
Proof.
  intros E. unfold chessboard_pose_estimation, bind, get_intrinsics, before_loop.
  rewrite E. simpl.
  destruct display_frame; simpl; rewrite <- ?app_assoc; simpl;
    rewrite ?app_nil_r; reflexivity.
Qed.

Lemma estimation_inv fuel camera size sq display_frame w p w' :
  chessboard_pose_estimation fuel camera size sq display_frame w = (Ok p, w') ->
  exists j evs,
    (grabbed w camera <= j)%nat /\
    estimate_of (cameras_of w camera) size sq (frames (cameras_of w camera) j) = Some p /\
    cameras_of w' = cameras_of w /\
    trace w' = trace w ++ evs /\ calls evs = [camera] /\
    (1 <= captures camera evs)%nat.
Proof.
  destruct (object_points_some size sq) as [objp E].
  rewrite (estimation_unfold _ _ _ _ _ _ objp E). intros H.
  apply pose_loop_inv in H. destruct H as (j & evs & Hj & Hs & Hc & Ht & Hcalls & Hcap).
  simpl in Hj, Hs, Hc, Ht.
  exists j, ((GetIntrinsics camera :: (if display_frame then [NamedWindow] else [])) ++ evs).
  unfold estimate_of. rewrite E. repeat split; auto.
  - rewrite Ht, <- app_assoc. reflexivity.
  - rewrite calls_app, Hcalls. destruct display_frame; reflexivity.
  - rewrite captures_app. lia.
Qed.

Lemma estimation_total camera size sq display_frame w :
  live w size sq camera ->
  exists p w',
    settles (fun fuel => chessboard_pose_estimation fuel camera size sq display_frame)
      w p w'.
Proof.
  intros Hl. destruct (object_points_some size sq) as [objp E].
  destruct (Hl (grabbed w camera)) as (j & Hj & Hs).
  unfold estimate_of in Hs. rewrite E in Hs.
  destruct (pose_loop_total camera size objp
              (camera_matrix (intrinsics (cameras_of w camera))) display_frame
              (j - grabbed w camera) (before_loop display_frame camera w))
    as (p & w' & Hp).
  { exists j. simpl. split; [lia|exact Hs]. }
  exists p, w', (S (j - grabbed w camera)). intros fuel Hf.
  rewrite (estimation_unfold _ _ _ _ _ _ objp E). apply Hp. lia.
Qed.

Lemma estimate_shape cam size sq img p :
  estimate_of cam size sq img = Some p ->
  has_shape 3 3 (fst p) = true /\ has_shape 3 1 (snd p) = true.
Proof.
  unfold estimate_of, solve_frame.
  destruct (object_points size sq) as [objp|]; [|discriminate].
  destruct (findChessboardCorners _ _) as [found corners].
  destruct found; [|discriminate].
  destruct (solvePnP _ _ _ _) as [[pose_found rot_vec] trasl_vec] eqn:E.
  destruct pose_found; [|discriminate].
  intros H; inversion H; subst; simpl. split.
  - apply Rodrigues_shape.
  - eapply solvePnP_shape; eauto.
Qed.

Lemma live_same w w' size sq c :
  cameras_of w' = cameras_of w -> live w size sq c -> live w' size sq c.
Proof. unfold live. intros ->. auto. Qed.

Lemma sampled_facts fuel camera size sq display_frame w ps w' :
  sampled fuel camera size sq display_frame w ps w' ->
  cameras_of w' = cameras_of w /\
  Forall (fun p => has_shape 3 3 (fst p) = true /\ has_shape 3 1 (snd p) = true) ps /\
  exists evs, trace w' = trace w ++ evs /\ calls evs = repeat camera (length ps).
Proof.
  induction 1 as [w|w p w1 ps w2 Hp _ (Hc & Hf & evs & Ht & Hcalls)].
  - repeat split; auto. exists []. now rewrite app_nil_r.
  - apply estimation_inv in Hp.
    destruct Hp as (j & evs0 & _ & He & Hc0 & Ht0 & Hcalls0 & _).
    split; [congruence|]. split.
    + constructor; auto. eapply estimate_shape; eauto.
    + exists (evs0 ++ evs). split.
      * rewrite Ht, Ht0, app_assoc. reflexivity.
      * rewrite calls_app, Hcalls0, Hcalls. reflexivity.
Qed.

Lemma sample_loop_inv fuel camera size sq display_frame k :
  forall rots trasls w rs ts w',
  sample_loop fuel camera size sq display_frame k rots trasls w = (Ok (rs, ts), w') ->
  exists ps, sampled fuel camera size sq display_frame w ps w' /\
    length ps = k /\ rs = rots ++ map fst ps /\ ts = trasls ++ map snd ps.
Proof.
  induction k as [|k IH]; intros rots trasls w rs ts w' H; simpl in H.
  - inversion H; subst. exists []. simpl. rewrite !app_nil_r.
    repeat split; auto. constructor.
  - unfold bind in H.
    destruct (chessboard_pose_estimation _ _ _ _ _ w) as [[p|e|] w1] eqn:E;
      try discriminate.
    apply IH in H. destruct H as (ps & Hs & Hl & Hr & Ht).
    exists (p :: ps). simpl. rewrite <- !app_assoc in *. simpl in *.
    repeat split; auto. econstructor; eauto.
Qed.

Lemma sample_loop_total camera size sq display_frame k :
  forall rots trasls w,
  live w size sq camera ->
  exists s w',
    settles (fun fuel => sample_loop fuel camera size sq display_frame k rots trasls)
      w s w'.
Proof.
  induction k as [|k IH]; intros rots trasls w Hl.
  - exists (rots, trasls), w. now apply settles_const.
  - destruct (estimation_total camera size sq display_frame w Hl) as (p & w1 & Hp).
    assert (Hc : cameras_of w1 = cameras_of w).
    { destruct Hp as [n Hn]. specialize (Hn n (Nat.le_refl n)).
      apply estimation_inv in Hn. destruct Hn as (_ & _ & _ & _ & Hc & _). exact Hc. }
    destruct (IH (rots ++ [fst p]) (trasls ++ [snd p]) w1 (live_same _ _ _ _ _ Hc Hl))
      as (s & w' & Hs).
    exists s, w'. simpl.
    apply (settles_bind
             (fun fuel => chessboard_pose_estimation fuel camera size sq display_frame)
             (fun fuel p => sample_loop fuel camera size sq display_frame k
                              (rots ++ [fst p]) (trasls ++ [snd p]))
             w p w1 s w' Hp Hs).
Qed.

Lemma camera_pose_inv fuel camera size sq loops display_frame w p w' :
  camera_pose fuel camera size sq loops display_frame w = (Ok p, w') ->
  (1 <= loops)%Z /\
  exists ps, sampled fuel camera size sq display_frame w ps w' /\
    length ps = Z.to_nat loops /\
    (loops = 1%Z -> ps = [p]) /\
    (loops <> 1%Z -> mean0 (map fst ps) = Some (fst p) /\
                     mean0 (map snd ps) = Some (snd p)).
Proof.
  unfold camera_pose. destruct (loops =? 1)%Z eqn:E1.
  - apply Z.eqb_eq in E1. subst loops. intros H. split; [lia|].
    exists [p]. repeat split; auto; try congruence.
    econstructor; eauto. constructor.
  - apply Z.eqb_neq in E1. unfold bind.
    destruct (sample_loop _ _ _ _ _ _ _ _ w) as [[[rs ts]|e|] w1] eqn:E;
      try discriminate.
    apply sample_loop_inv in E. destruct E as (ps & Hs & Hl & -> & ->).
    simpl. destruct (mean0 (map fst ps)) as [rot|] eqn:Er; [|discriminate].
    simpl. destruct (mean0 (map snd ps)) as [tr|] eqn:Et; [|discriminate].
    simpl. intros H; inversion H; subst. split.
    + destruct ps; [discriminate|]. simpl in Hl. lia.
    + exists ps. repeat split; auto; congruence.
Qed.

Lemma camera_pose_shape fuel camera size sq loops display_frame w p w' :
  camera_pose fuel camera size sq loops display_frame w = (Ok p, w') ->
  has_shape 3 3 (fst p) = true /\ has_shape 3 1 (snd p) = true.
Proof.
  intros H. apply camera_pose_inv in H.
  destruct H as (Hloops & ps & Hs & Hl & H1 & Hn).
  apply sampled_facts in Hs. destruct Hs as (_ & Hf & _).
  destruct (Z.eq_dec loops 1) as [E|E].
  - rewrite (H1 E) in Hf. now inversion Hf.
  - destruct (Hn E) as [Hr Ht].
    assert (Hne : ps <> []) by (destruct ps; [simpl in Hl; lia|discriminate]).
    destruct (mean0_spec 3 3 (map fst ps)) as (m & Hm & Hsh & _).
    { destruct ps; [congruence|discriminate]. }
    { apply Forall_map. eapply Forall_impl; [|exact Hf]. now intros ? []. }
    destruct (mean0_spec 3 1 (map snd ps)) as (m' & Hm' & Hsh' & _).
    { destruct ps; [congruence|discriminate]. }
    { apply Forall_map. eapply Forall_impl; [|exact Hf]. now intros ? []. }
    split; congruence.
Qed.

Lemma camera_pose_total camera size sq loops display_frame w :
  live w size sq camera -> (1 <= loops)%Z ->
  exists p w',
    settles (fun fuel => camera_pose fuel camera size sq loops display_frame) w p w'.
Proof.
  intros Hl Hloops. unfold camera_pose. destruct (loops =? 1)%Z eqn:E1.
  - apply estimation_total, Hl.
  - apply Z.eqb_neq in E1.
    destruct (sample_loop_total camera size sq display_frame (Z.to_nat loops) [] [] w Hl)
      as ([rs ts] & w' & n & Hn).
    pose proof (Hn n (Nat.le_refl n)) as H0.
    apply sample_loop_inv in H0. destruct H0 as (ps & Hs & Hlen & Hr & Ht).
    simpl in Hr, Ht. subst rs ts.
    apply sampled_facts in Hs. destruct Hs as (_ & Hf & _).
    assert (Hne : ps <> []) by (destruct ps; [simpl in Hlen; lia|discriminate]).
    destruct (mean0_spec 3 3 (map fst ps)) as (m & Hm & _).
    { destruct ps; [congruence|discriminate]. }
    { apply Forall_map. eapply Forall_impl; [|exact Hf]. now intros ? []. }
    destruct (mean0_spec 3 1 (map snd ps)) as (m' & Hm' & _).
    { destruct ps; [congruence|discriminate]. }
    { apply Forall_map. eapply Forall_impl; [|exact Hf]. now intros ? []. }
    exists (m, m'), w', n. intros fuel Hfu. unfold bind.
    rewrite (Hn fuel Hfu). simpl. rewrite Hm. simpl. rewrite Hm'. reflexivity.
Qed.

Lemma homogeneous_matrices_inv fuel size sq loops display_frame cameras :
  forall w hs w',
  homogeneous_matrices fuel cameras size sq loops display_frame w = (Ok hs, w') ->
  length hs = length cameras /\ Forall affine hs /\
  cameras_of w' = cameras_of w /\
  exists evs, trace w' = trace w ++ evs /\
    calls evs = flat_map (fun c => repeat c (Z.to_nat loops)) cameras.
Proof.
  induction cameras as [|camera rest IH]; intros w hs w' H; simpl in H.
  - inversion H; subst. repeat split; auto. exists []. now rewrite app_nil_r.
  - unfold bind in H.
    destruct (camera_pose _ _ _ _ _ _ w) as [[p|e|] w1] eqn:Ep; try discriminate.
    destruct (homogeneous (fst p) (snd p)) as [hom|] eqn:Eh; [|discriminate].
    simpl in H.
    destruct (homogeneous_matrices _ _ _ _ _ _ w1) as [[hs'|e|] w2] eqn:Er;
      try discriminate.
    inversion H; subst. clear H.
    apply IH in Er. destruct Er as (Hl & Hf & Hc & evs & Ht & Hcalls).
    apply camera_pose_inv in Ep. destruct Ep as (_ & ps & Hs & Hlen & _).
    apply sampled_facts in Hs. destruct Hs as (Hc1 & _ & evs1 & Ht1 & Hcalls1).
    simpl. repeat split; auto.
    + constructor; auto. eapply homogeneous_affine; eauto.
    + congruence.
    + exists (evs1 ++ evs). split.
      * rewrite Ht, Ht1, app_assoc. reflexivity.
      * rewrite calls_app, Hcalls, Hcalls1, Hlen. reflexivity.
Qed.

Lemma homogeneous_matrices_per_camera fuel size sq loops display_frame cameras :
  forall w hs w',
  homogeneous_matrices fuel cameras size sq loops display_frame w = (Ok hs, w') ->
  Forall2 (assembled_for fuel size sq loops display_frame) cameras hs.
Proof.
  induction cameras as [|camera rest IH]; intros w hs w' H; simpl in H.
  - inversion H; subst. constructor.
  - unfold bind in H.
    destruct (camera_pose _ _ _ _ _ _ w) as [[p|e|] w1] eqn:Ep; try discriminate.
    destruct (homogeneous (fst p) (snd p)) as [hom|] eqn:Eh; [|discriminate].
    simpl in H.
    destruct (homogeneous_matrices _ _ _ _ _ _ w1) as [[hs'|e|] w2] eqn:Er;
      try discriminate.
    inversion H; subst. constructor; eauto.
    exists p, w, w1. auto.
Qed.

Lemma homogeneous_matrices_total size sq loops display_frame cameras :
  forall w,
  (forall c, In c cameras -> live w size sq c) -> (1 <= loops)%Z ->
  exists hs w',
    settles (fun fuel => homogeneous_matrices fuel cameras size sq loops display_frame)
      w hs w'.
Proof.
  induction cameras as [|camera rest IH]; intros w Hl Hloops.
  - exists [], w. now apply settles_const.
  - destruct (camera_pose_total camera size sq loops display_frame w) as (p & w1 & n1 & H1);
      auto using in_eq.
    pose proof (H1 n1 (Nat.le_refl n1)) as H0.
    destruct (camera_pose_shape _ _ _ _ _ _ _ _ _ H0) as [Hr Ht].
    destruct (homogeneous_shape _ _ Hr Ht)
      as (a & b & c & d & e & f & g & h & i & x & y & z & _ & _ & Eh).
    apply camera_pose_inv in H0. destruct H0 as (_ & ps & Hs & _).
    apply sampled_facts in Hs. destruct Hs as (Hc1 & _).
    destruct (IH w1) as (hs & w' & n2 & H2); auto.
    { intros c0 Hin. eapply live_same; eauto using in_cons. }
    eexists (_ :: hs), w', (Nat.max n1 n2). intros fuel Hf. simpl. unfold bind.
    rewrite H1 by lia. rewrite Eh. simpl. rewrite H2 by lia. reflexivity.
Qed.

Lemma inv_some h : det (length h) h <> 0 -> exists H_inv, inv h = Some H_inv.
Proof.
  intros H. unfold inv. destruct (Qc_eq_dec _ 0); [contradiction|]. eauto.
Qed.

Lemma relative_inv H_ref hs : forall out,
  relative H_ref hs = Some out ->
  length out = length hs /\
  forall k, (k < length hs)%nat ->
    exists H_inv, inv (nth k hs []) = Some H_inv /\
      nth k out [] = matmul H_ref H_inv.
Proof.
  induction hs as [|h hs IH]; intros out H; simpl in H.
  - inversion H; subst. split; auto. simpl. intros; lia.
  - destruct (inv h) as [H_inv|] eqn:Ei; [|discriminate].
    destruct (relative H_ref hs) as [out'|]; [|discriminate].
    inversion H; subst. destruct (IH out' eq_refl) as [Hl Hk].
    split; [simpl; congruence|].
    intros [|k] Hlt; simpl in *; eauto. apply Hk. lia.
Qed.

Lemma relative_total H_ref hs :
  Forall (fun h => inv h <> None) hs -> exists out, relative H_ref hs = Some out.
Proof.
  induction 1 as [|h hs Hh _ [out IH]]; simpl; eauto.
  destruct (inv h); [|congruence]. rewrite IH. eauto.
Qed.

(** the relative transform of one matrix; nothing to multiply when the
    matrix is singular *)
Lemma relative_map H_ref hs out :
  relative H_ref hs = Some out ->
  out = map (fun h => match inv h with
                      | Some H_inv => matmul H_ref H_inv
                      | None => []
                      end) hs.
Proof.
  revert out; induction hs as [|h hs IH]; intros out H; simpl in H.
  - now inversion H.
  - simpl. destruct (inv h) as [H_inv|]; [|discriminate].
    destruct (relative H_ref hs) as [out'|]; [|discriminate].
    inversion H; subst. f_equal. now apply IH.
Qed.

Lemma discard_frames_run n camera : forall w,
  exists w', discard_frames n camera w = (Ok tt, w') /\
    cameras_of w' = cameras_of w /\
    trace w' = trace w ++ repeat (GetRgb camera) n.
Proof.
  induction n as [|n IH]; intros w; simpl.
  - exists w. now rewrite app_nil_r.
  - unfold bind, get_rgb.
    match goal with |- context [discard_frames n camera ?w1] =>
      destruct (IH w1) as (w' & Hr & Hc & Ht) end.
    exists w'. rewrite Hr. repeat split; auto.
    rewrite Ht. simpl. now rewrite <- app_assoc.
Qed.

Lemma warm_up_run cameras : forall w,
  exists w', warm_up cameras w = (Ok tt, w') /\
    cameras_of w' = cameras_of w /\
    trace w' = trace w ++ warm_events cameras.
Proof.
  induction cameras as [|camera rest IH]; intros w; cbn [warm_up].
  - exists w. unfold warm_events. simpl. now rewrite app_nil_r.
  - unfold bind. destruct (discard_frames_run 10 camera w) as (w1 & Hr & Hc & Ht).
    rewrite Hr. destruct (IH w1) as (w' & Hr' & Hc' & Ht').
    exists w'. repeat split; auto; try congruence.
    rewrite Ht', Ht, <- app_assoc. reflexivity.
Qed.

Lemma grows_bind {A B} (m : M A) (k : A -> M B) :
  grows m -> (forall a, grows (k a)) -> grows (bind m k).
Proof.
  intros Hm Hk w. unfold bind. destruct (Hm w) as [evs Hevs].
  destruct (m w) as [[a|e|] w1]; simpl in *; eauto.
  destruct (Hk a w1) as [evs' Hevs']. exists (evs ++ evs').
  rewrite Hevs', Hevs, app_assoc. reflexivity.
Qed.

Lemma grows_pure {A} (r : result A) : grows (fun w => (r, w)).
Proof. intros w. exists []. simpl. now rewrite app_nil_r. Qed.

Lemma grows_of_option {A} e (o : option A) : grows (of_option e o).
Proof. destruct o; apply grows_pure. Qed.

Lemma grows_pose_loop camera size objp mtx display_frame fuel :
  grows (pose_loop fuel camera size objp mtx display_frame).
Proof.
  induction fuel as [|fuel IH]; intros w; [apply grows_pure|].
  rewrite pose_loop_S. destruct (solve_frame _ _ _ _).
  - simpl. eauto.
  - destruct (IH (after_frame display_frame camera w)) as [evs H].
    simpl in H. rewrite H, <- app_assoc. eauto.
Qed.

Lemma grows_estimation fuel camera size sq display_frame :
  grows (chessboard_pose_estimation fuel camera size sq display_frame).
Proof.
  intros w. destruct (object_points_some size sq) as [objp E].
  rewrite (estimation_unfold _ _ _ _ _ _ objp E).
  destruct (grows_pose_loop camera size objp
              (camera_matrix (intrinsics (cameras_of w camera))) display_frame fuel
              (before_loop display_frame camera w)) as [evs H].
  simpl in H. rewrite H, <- app_assoc. eauto.
Qed.

Lemma grows_sample_loop fuel camera size sq display_frame k :
  forall rots trasls,
  grows (sample_loop fuel camera size sq display_frame k rots trasls).
Proof.
  induction k as [|k IH]; intros rots trasls; simpl.
  - apply grows_pure.
  - apply grows_bind; auto using grows_estimation.
Qed.

Lemma grows_camera_pose fuel camera size sq loops display_frame :
  grows (camera_pose fuel camera size sq loops display_frame).
Proof.
  unfold camera_pose. destruct (loops =? 1)%Z.
  - apply grows_estimation.
  - apply grows_bind; [apply grows_sample_loop|]. intros s.
    apply grows_bind; [apply grows_of_option|]. intros rot.
    apply grows_bind; [apply grows_of_option|]. intros tr. apply grows_pure.
Qed.

Lemma grows_homogeneous_matrices fuel size sq loops display_frame cameras :
  grows (homogeneous_matrices fuel cameras size sq loops display_frame).
Proof.
  induction cameras as [|camera rest IH]; simpl.
  - apply grows_pure.
  - apply grows_bind; [apply grows_camera_pose|]. intros p.
    apply grows_bind; [apply grows_of_option|]. intros hom.
    apply grows_bind; [apply IH|]. intros hs. apply grows_pure.
Qed.

Lemma assertion_fails fuel cameras size sq loops display_frame w :
  (length cameras < 2)%nat ->
  extrinsic_calibration fuel cameras size sq loops display_frame w
  = (Raise AssertionError, w).
Proof.
  intros H. unfold extrinsic_calibration.
  destruct (2 <=? length cameras)%nat eqn:E; [|reflexivity].
  apply Nat.leb_le in E. lia.
Qed.

Lemma extrinsic_split fuel cameras size sq loops display_frame w :
  (2 <= length cameras)%nat ->
  extrinsic_calibration fuel cameras size sq loops display_frame w =
  match assemble fuel cameras size sq loops display_frame w with
  | (Ok hs, w2) =>
      match hs with
      | [] => (Raise IndexError, w2)
      | H_ref :: _ =>
          match relative H_ref hs with
          | Some out => (Ok (tl out), w2)
          | None => (Raise LinAlgError, w2)
          end
      end
  | (Raise e, w2) => (Raise e, w2)
  | (OutOfFuel, w2) => (OutOfFuel, w2)
  end.
Proof.
  intros H. unfold extrinsic_calibration, assemble.
  apply Nat.leb_le in H. rewrite H. unfold bind.
  destruct (warm_up cameras w) as [[[]|e|] w1]; try reflexivity.
  destruct (homogeneous_matrices _ _ _ _ _ _ w1) as [[hs|e|] w2]; try reflexivity.
  destruct hs as [|H_ref hs]; simpl; [reflexivity|].
  destruct (inv H_ref); [|reflexivity].
  destruct (relative H_ref hs); reflexivity.
Qed.

Lemma assemble_run fuel cameras size sq loops display_frame w :
  exists w1, cameras_of w1 = cameras_of w /\
    trace w1 = trace w ++ warm_events cameras /\
    assemble fuel cameras size sq loops display_frame w
    = homogeneous_matrices fuel cameras size sq loops display_frame w1.
Proof.
  destruct (warm_up_run cameras w) as (w1 & Hr & Hc & Ht).
  exists w1. repeat split; auto. unfold assemble, bind. now rewrite Hr.
Qed.

Lemma affine_inv h H_inv :
  affine h -> inv h = Some H_inv ->
  affine H_inv /\ matmul h H_inv = eye 4 /\ matmul H_inv h = eye 4.
Proof.
  intros (a & b & c & x & d & e & f & y & g & hh & i & z & ->) Hi.
  destruct (inv_homogeneous a b c d e f g hh i x y z) as (H' & Hi' & Ha & H1 & H2).
  - rewrite <- det_homogeneous with (x := x) (y := y) (z := z).
    unfold inv in Hi. simpl length in Hi.
    destruct (Qc_eq_dec _ 0); [discriminate|assumption].
  - rewrite Hi in Hi'. inversion Hi'; subst. auto.
Qed.

Lemma relative_affine H_ref hs : forall out,
  affine H_ref -> Forall affine hs -> relative H_ref hs = Some out ->
  Forall affine out.
Proof.
  induction hs as [|h hs IH]; intros out Hr Hf H; simpl in H.
  - inversion H. constructor.
  - inversion Hf; subst.
    destruct (inv h) as [H_inv|] eqn:Ei; [|discriminate].
    destruct (relative H_ref hs) as [out'|]; [|discriminate].
    inversion H; subst. constructor; auto.
    apply matmul_affine; auto. eapply affine_inv; eauto.
Qed.

Lemma nth_tl {A} (l : list A) k d : nth k (tl l) d = nth (S k) l d.
Proof. destruct l; simpl; auto. destruct k; auto. Qed.

End Runs.

(** ** Equality tests, tolerances and means *)

Lemma list_eqb_eq {A} (eqb : A -> A -> bool) :
  (forall x y, eqb x y = true -> x = y) ->
  forall u v, list_eqb eqb u v = true -> u = v.
Proof.
  intros Heq. induction u as [|x u IH]; intros [|y v] H; simpl in H;
    try discriminate; auto.
  apply andb_true_iff in H. destruct H as [Hx Hu].
  f_equal; auto.
Qed.

Lemma Qc_eqb_eq x y : Qc_eqb x y = true -> x = y.
Proof. unfold Qc_eqb. destruct (Qc_eq_dec x y); [auto|discriminate]. Qed.

Lemma row_eqb_eq u v : row_eqb u v = true -> u = v.
Proof. apply list_eqb_eq, Qc_eqb_eq. Qed.

Lemma matrix_eqb_eq a b : matrix_eqb a b = true -> a = b.
Proof. apply list_eqb_eq, row_eqb_eq. Qed.

Lemma matrices_eqb_eq a b : matrices_eqb a b = true -> a = b.
Proof. apply list_eqb_eq, matrix_eqb_eq. Qed.

Lemma reprojects_nth mtx rot trasl : forall objp corners,
  reprojects mtx rot trasl objp corners = true ->
  length corners = length objp /\
  forall k, (k < length objp)%nat ->
    project mtx (transform_point rot trasl (nth k objp [])) = nth k corners [].
Proof.
  induction objp as [|X objp IH]; intros [|uv corners] H; simpl in H;
    try discriminate.
  - split; auto. simpl. intros; lia.
  - apply andb_true_iff in H. destruct H as [Hx Hr].
    apply row_eqb_eq in Hx. destruct (IH _ Hr) as [Hl Hk].
    split; [simpl; congruence|].
    intros [|k] Hlt; [exact Hx|]. apply Hk. simpl in Hlt. lia.
Qed.

Lemma Qc_leb_le x y : Qc_leb x y = true <-> x <= y.
Proof.
  unfold Qc_leb. destruct (Qclt_le_dec y x) as [H|H]; split; auto; try discriminate.
  intros Hle. exfalso. eapply Qclt_not_le; eauto.
Qed.

Lemma is_rotation_weaken tol rot :
  0 <= tol -> is_rotation 0 rot = true -> is_rotation tol rot = true.
Proof.
  intros Htol. unfold is_rotation, close. rewrite !andb_true_iff.
  intros [Hd Hc]. split.
  - apply Qc_leb_le. apply Qc_leb_le in Hd. eapply Qcle_trans; eauto.
  - rewrite forallb_forall in *. intros i Hi. specialize (Hc i Hi).
    rewrite forallb_forall in *. intros j Hj. specialize (Hc j Hj).
    apply Qc_leb_le. apply Qc_leb_le in Hc. eapply Qcle_trans; eauto.
Qed.

Lemma of_nat_S_nonzero n : of_nat (S n) <> 0.
Proof.
  unfold of_nat. intros H. apply Q2Qc_eq_iff in H.
  unfold Qeq in H. simpl in H. lia.
Qed.

Lemma entry_sum_equal (m : matrix) i j ms :
  Forall (fun a => a = m) ms ->
  entry_sum ms i j = of_nat (length ms) * entry m i j.
Proof.
  induction 1 as [|a ms -> _ IH]; unfold entry_sum in *; simpl.
  - change (of_nat 0) with (Q2Qc 0). ring.
  - rewrite IH, of_nat_S. ring.
Qed.

Lemma shape_3_3_ext a b :
  has_shape 3 3 a = true -> has_shape 3 3 b = true ->
  (forall i j, (i < 3)%nat -> (j < 3)%nat -> entry a i j = entry b i j) ->
  a = b.
Proof.
  intros Ha Hb H.
  destruct (shape_3_3 _ Ha) as (a0 & a1 & a2 & a3 & a4 & a5 & a6 & a7 & a8 & ->).
  destruct (shape_3_3 _ Hb) as (b0 & b1 & b2 & b3 & b4 & b5 & b6 & b7 & b8 & ->).
  pose proof (H 0 0)%nat as H00. pose proof (H 0 1)%nat as H01.
  pose proof (H 0 2)%nat as H02. pose proof (H 1 0)%nat as H10.
  pose proof (H 1 1)%nat as H11. pose proof (H 1 2)%nat as H12.
  pose proof (H 2 0)%nat as H20. pose proof (H 2 1)%nat as H21.
  pose proof (H 2 2)%nat as H22.
  unfold entry in *. simpl in *.
  rewrite H00, H01, H02, H10, H11, H12, H20, H21, H22 by lia. reflexivity.
Qed.

(** the mean of samples that all equal [m] is [m] *)
Lemma mean0_equal (m mean : matrix) ms :
  has_shape 3 3 m = true -> ms <> [] -> Forall (fun a => a = m) ms ->
  mean0 ms = Some mean -> mean = m.
Proof.
  intros Hm Hne Hall Hmean.
  destruct (mean0_spec 3 3 ms Hne) as (m' & Hm' & Hsh & He).
  { eapply Forall_impl; [|exact Hall]. now intros a ->. }
  rewrite Hmean in Hm'. inversion Hm'; subst m'.
  apply shape_3_3_ext; auto. intros i j Hi Hj.
  rewrite He, (entry_sum_equal m) by auto.
  destruct ms as [|a ms]; [congruence|]. cbn [length].
  field. apply of_nat_S_nonzero.
Qed.

(** ** Exchanging two positions of a list *)

Lemma swap_length {A} (d : A) i j l : length (swap d i j l) = length l.
Proof. unfold swap. now rewrite length_map, length_seq. Qed.

Lemma swap_nth {A} (d d' : A) i j l k :
  (k < length l)%nat ->
  nth k (swap d i j l) d'
  = nth (if Nat.eqb k i then j else if Nat.eqb k j then i else k) l d.
Proof. intros H. unfold swap. now rewrite nth_map_seq. Qed.

Lemma swap_map {A B} (f : A -> B) (d : A) (d' : B) i j l :
  (i < length l)%nat -> (j < length l)%nat ->
  map f (swap d i j l) = swap d' i j (map f l).
Proof.
  intros Hi Hj. unfold swap. rewrite map_map, length_map.
  apply map_ext_in. intros k Hk. apply in_seq in Hk.
  symmetry. apply nth_map_lt.
  destruct (Nat.eqb k i); [lia|]. destruct (Nat.eqb k j); lia.
Qed.

Lemma swap_cons {A} (d : A) i j x l :
  (1 <= i)%nat -> (1 <= j)%nat ->
  swap d i j (x :: l) = x :: swap d (i - 1) (j - 1) l.
Proof.
  intros Hi Hj. destruct i as [|i]; [lia|]. destruct j as [|j]; [lia|].
  unfold swap. cbn [length seq map Nat.eqb nth]. f_equal.
  rewrite <- seq_shift, map_map. apply map_ext. intros k.
  cbn [Nat.eqb Nat.sub]. rewrite !Nat.sub_0_r.
  destruct (Nat.eqb k i); [reflexivity|]. destruct (Nat.eqb k j); reflexivity.
Qed.

Lemma swap_In {A} (d : A) i j l x :
  (i < length l)%nat -> (j < length l)%nat -> In x (swap d i j l) -> In x l.
Proof.
  intros Hi Hj H. unfold swap in H. apply in_map_iff in H.
  destruct H as (k & <- & Hk). apply in_seq in Hk. apply nth_In.
  destruct (Nat.eqb k i); [lia|]. destruct (Nat.eqb k j); lia.
Qed.

Lemma relative_some_inv H_ref hs out :
  relative H_ref hs = Some out -> Forall (fun h => inv h <> None) hs.
Proof.
  revert out; induction hs as [|h hs IH]; intros out H; simpl in H; constructor.
  - destruct (inv h); [discriminate|discriminate H].
  - destruct (inv h); [|discriminate].
    destruct (relative H_ref hs) eqn:E; [|discriminate]. eapply IH; eauto.
Qed.

(** ** The claims *)

Section Claims.

Context {cv : OpenCV}.

Lemma estimate_rodrigues cam size sq img p :
  estimate_of cam size sq img = Some p -> exists v, fst p = Rodrigues v.
Proof.
  unfold estimate_of, solve_frame.
  destruct (object_points size sq) as [objp|]; [|discriminate].
  destruct (findChessboardCorners _ _) as [found corners].
  destruct found; [|discriminate].
  destruct (solvePnP _ _ _ _) as [[pose_found rot_vec] trasl_vec].
  destruct pose_found; [|discriminate].
  intros H; inversion H; subst; simpl. eauto.
Qed.

Lemma sampled_rodrigues fuel camera size sq display_frame w ps w' :
  sampled fuel camera size sq display_frame w ps w' ->
  Forall (fun p => exists v, fst p = Rodrigues v) ps.
Proof.
  induction 1 as [w|w p w1 ps w2 Hp _ IH]; constructor; auto.
  apply estimation_inv in Hp. destruct Hp as (j & evs & _ & He & _).
  eapply estimate_rodrigues; eauto.
Qed.

Lemma single_sample_invertible fuel size sq display_frame camera hom :
  (forall v, det 3 (Rodrigues v) <> 0) ->
  assembled_for fuel size sq 1 display_frame camera hom ->
  det 4 hom <> 0.
Proof.
  intros Hrot (p & w & w' & Hp & Hh).
  unfold camera_pose in Hp. cbn [Z.eqb Pos.eqb] in Hp.
  apply estimation_inv in Hp. destruct Hp as (j & evs & _ & He & _).
  apply estimate_rodrigues in He. destruct He as [v Hv].
  destruct (homogeneous_inv _ _ _ Hh) as [Hr Ht].
  destruct (homogeneous_shape _ _ Hr Ht)
    as (a & b & c & d & e & f & g & h & i & x & y & z & Er & Et & E).
  rewrite E in Hh. inversion Hh; subst hom.
  rewrite det_homogeneous, <- Er, Hv. apply Hrot.
Qed.

(** C5: with fewer than two cameras the assertion of line 22 fails at
    once (AssertionError, the InvalidInput condition): the store is left
    as it was, so no frame has been captured, no intrinsics have been
    read and nothing has been added to the trace. *)
Theorem fewer_than_two_cameras_fails fuel cameras size sq loops display_frame w :
  (length cameras < 2)%nat ->
  extrinsic_calibration fuel cameras size sq loops display_frame w
  = (Raise AssertionError, w).
Proof. apply assertion_fails. Qed.

Lemma captures_warm_events c cameras :
  In c cameras -> (10 <= captures c (warm_events cameras))%nat.
Proof.
  induction cameras as [|c0 rest IH]; intros Hin; [contradiction|].
  unfold warm_events. cbn [flat_map]. rewrite captures_app.
  destruct Hin as [->|Hin].
  - unfold captures at 1. simpl. rewrite !Nat.eqb_refl. simpl. lia.
  - apply IH in Hin. unfold warm_events in Hin. lia.
Qed.

Lemma calls_warm_events cameras : calls (warm_events cameras) = [].
Proof.
  induction cameras as [|c rest IH]; [reflexivity|].
  unfold warm_events. cbn [flat_map]. rewrite calls_app. exact IH.
Qed.

Lemma before_first_call warm : forall rest pre c post,
  calls warm = [] ->
  warm ++ rest = pre ++ GetIntrinsics c :: post ->
  exists pre', pre = warm ++ pre'.
Proof.
  induction warm as [|e warm IH]; intros rest pre c post Hc H; simpl in *; eauto.
  destruct pre as [|e' pre]; simpl in H; inversion H; subst.
  - simpl in Hc. discriminate.
  - assert (Hc' : calls warm = []).
    { unfold calls in *. simpl in Hc. now apply app_eq_nil in Hc. }
    destruct (IH _ _ _ _ Hc' H2) as [pre' ->]. eauto.
Qed.

(** C8: whatever the outcome of a calibration on two or more cameras, the
    events it adds to the trace start with ten discarded [get_rgb] frames
    per entry of the camera list and no estimator call among them; hence
    at least ten frames of every listed camera precede the first pose
    estimation on any camera. *)
Theorem warm_up_precedes_sampling fuel cameras size sq loops display_frame w :
  (2 <= length cameras)%nat ->
  exists rest,
    trace (snd (extrinsic_calibration fuel cameras size sq loops display_frame w))
    = trace w ++ warm_events cameras ++ rest /\
    calls (warm_events cameras) = [] /\
    (forall c, In c cameras -> (10 <= captures c (warm_events cameras))%nat) /\
    (forall pre c' post,
        warm_events cameras ++ rest = pre ++ GetIntrinsics c' :: post ->
        forall c, In c cameras -> (10 <= captures c pre)%nat).
Proof.
  intros Hn. rewrite extrinsic_split by exact Hn.
  destruct (assemble_run fuel cameras size sq loops display_frame w)
    as (w1 & Hc & Ht & Ha).
  destruct (grows_homogeneous_matrices fuel size sq loops display_frame cameras w1)
    as [rest Hrest].
  rewrite <- Ha in Hrest.
  exists rest. split; [|split; [|split]].
  - rewrite app_assoc, <- Ht, <- Hrest. f_equal.
    destruct (assemble _ _ _ _ _ _ w) as [[hs|e|] w2]; try reflexivity.
    destruct hs as [|H_ref hs]; try reflexivity.
    destruct (relative H_ref (H_ref :: hs)); reflexivity.
  - apply calls_warm_events.
  - intros c. apply captures_warm_events.
  - intros pre c' post Hsplit c Hin.
    destruct (before_first_call _ _ _ _ _ (calls_warm_events cameras) Hsplit)
      as [pre' ->].
    rewrite captures_app. pose proof (captures_warm_events c cameras Hin). lia.
Qed.

(** C1: on a list of n >= 2 cameras that keep seeing the board, with at
    least one sample per camera, the run assembles one transform per
    camera ([hs], entry k being the one assembled for the camera at
    position k); they are invertible at least when a single sample is
    taken and rotation vectors become invertible matrices; when they are
    invertible the
    calibration returns exactly n - 1 transforms, the k-th being
    [H_ref . inverse(H_X)] for the camera X at position k + 1 of the list,
    where H_ref is the transform of the first camera; the loop computes n
    products and the one of the reference camera is dropped. *)
Theorem extrinsic_calibration_returns cameras size sq loops display_frame w :
  (2 <= length cameras)%nat -> (1 <= loops)%Z ->
  (forall c, In c cameras -> live w size sq c) ->
  exists fuel0 hs,
    length hs = length cameras /\
    Forall2 (assembled_for fuel0 size sq loops display_frame) cameras hs /\
    (forall fuel, (fuel0 <= fuel)%nat ->
       fst (assemble fuel cameras size sq loops display_frame w) = Ok hs) /\
    (loops = 1%Z -> (forall v, det 3 (Rodrigues v) <> 0) ->
     Forall (fun h => det 4 h <> 0) hs) /\
    (Forall (fun h => det 4 h <> 0) hs ->
     exists every out,
       relative (nth 0 hs []) hs = Some every /\
       length every = length cameras /\ out = tl every /\
       (forall fuel, (fuel0 <= fuel)%nat ->
          fst (extrinsic_calibration fuel cameras size sq loops display_frame w)
          = Ok out) /\
       length out = (length cameras - 1)%nat /\
       forall k, (k < length cameras - 1)%nat ->
         exists H_inv,
           inv (nth (S k) hs []) = Some H_inv /\
           matmul (nth (S k) hs []) H_inv = eye 4 /\
           nth k out [] = matmul (nth 0 hs []) H_inv).
Proof.
  intros Hn Hloops Hlive.
  destruct (warm_up_run cameras w) as (w1 & Hw & Hc & Ht).
  destruct (homogeneous_matrices_total size sq loops display_frame cameras w1)
    as (hs & w2 & n & Hrun); auto.
  { intros c Hin. eapply live_same; eauto. }
  pose proof (Hrun n (Nat.le_refl n)) as H0.
  pose proof (homogeneous_matrices_per_camera _ _ _ _ _ _ _ _ _ H0) as Hper.
  apply homogeneous_matrices_inv in H0. destruct H0 as (Hlen & Haff & _).
  assert (Hasm : forall fuel, (n <= fuel)%nat ->
            assemble fuel cameras size sq loops display_frame w = (Ok hs, w2)).
  { intros fuel Hf. unfold assemble, bind. rewrite Hw. now apply Hrun. }
  exists n, hs. split; [exact Hlen|]. split; [exact Hper|]. split.
  { intros fuel Hf. now rewrite Hasm. }
  split.
  { intros -> Hrot. clear - Hper Hrot.
    induction Hper as [|c h cs hs' Hch _ IH]; constructor; auto.
    eapply single_sample_invertible; eauto. }
  intros Hdet.
  destruct (relative_total (nth 0 hs []) hs) as [every Hrel].
  { rewrite Forall_forall in *. intros h Hin.
    destruct (affine_last_row h (Haff h Hin)) as [Hsh _].
    apply has_shape_spec in Hsh. destruct Hsh as [Hl4 _].
    destruct (inv_some h) as [H_inv Hi]; [rewrite Hl4; auto|]. congruence. }
  destruct (relative_inv _ _ _ Hrel) as [Hlev Hk].
  exists every, (tl every). repeat split; auto; try congruence.
  - intros fuel Hf. rewrite extrinsic_split by exact Hn. rewrite Hasm by exact Hf.
    destruct hs as [|H_ref hs']; [simpl in Hlen; lia|].
    simpl nth in Hrel. now rewrite Hrel.
  - destruct every; simpl in *; lia.
  - intros k Hlt. destruct (Hk (S k)) as (H_inv & Hi & Hnth); [lia|].
    exists H_inv. repeat split; auto.
    + assert (Ha : affine (nth (S k) hs [])).
      { rewrite Forall_forall in Haff. apply Haff, nth_In. lia. }
      now destruct (affine_inv _ _ Ha Hi) as (_ & H1 & _).
    + now rewrite nth_tl.
Qed.

(** C10: with at least one sample per camera, every matrix returned by
    the calibration is a 4x4 array whose last row is exactly
    [[0; 0; 0; 1]]. *)
Theorem returned_transforms_are_affine fuel cameras size sq loops display_frame w out :
  (1 <= loops)%Z ->
  fst (extrinsic_calibration fuel cameras size sq loops display_frame w) = Ok out ->
  Forall (fun m => has_shape 4 4 m = true /\ nth 3 m [] = [0; 0; 0; 1]) out.
Proof.
  intros _ H.
  assert (Hn : (2 <= length cameras)%nat).
  { destruct (Nat.lt_ge_cases (length cameras) 2) as [Hlt|]; auto.
    rewrite assertion_fails in H by exact Hlt. discriminate. }
  rewrite extrinsic_split in H by exact Hn.
  destruct (assemble_run fuel cameras size sq loops display_frame w)
    as (w1 & _ & _ & Ha).
  rewrite Ha in H.
  destruct (homogeneous_matrices _ _ _ _ _ _ w1) as [[hs|e|] w2] eqn:E;
    try discriminate.
  apply homogeneous_matrices_inv in E. destruct E as (_ & Haff & _).
  destruct hs as [|H_ref hs]; [discriminate|].
  destruct (relative H_ref (H_ref :: hs)) as [every|] eqn:Er; [|discriminate].
  simpl in H. inversion H; subst.
  assert (Hall : Forall affine every).
  { eapply relative_affine; eauto. now inversion Haff. }
  destruct every as [|m every]; simpl; [constructor|].
  inversion Hall; subst. eapply Forall_impl; [|eassumption].
  intros m' Hm'. now apply affine_last_row.
Qed.

(** C7: the homogeneous matrix assembled from a 3x3 rotation block of
    non-zero determinant and a 3x1 translation is invertible, its product
    with its inverse (on either side) is the 4x4 identity, and so is the
    first product the relative-transform loop computes, the one of the
    reference camera with itself. *)
Theorem homogeneous_times_inverse rot trasl :
  has_shape 3 3 rot = true -> has_shape 3 1 trasl = true -> det 3 rot <> 0 ->
  exists hom H_inv,
    homogeneous rot trasl = Some hom /\ inv hom = Some H_inv /\
    matmul hom H_inv = eye 4 /\ matmul H_inv hom = eye 4 /\
    forall rest every,
      relative hom (hom :: rest) = Some every -> nth 0 every [] = eye 4.
Proof.
  intros Hr Ht Hd.
  destruct (homogeneous_shape _ _ Hr Ht)
    as (a & b & c & d & e & f & g & h & i & x & y & z & -> & -> & Eh).
  destruct (inv_homogeneous a b c d e f g h i x y z Hd) as (H_inv & Hi & _ & H1 & H2).
  exists [[a; b; c; x]; [d; e; f; y]; [g; h; i; z]; [0; 0; 0; 1]], H_inv.
  repeat split; auto.
  intros rest every Hrel. cbn [relative] in Hrel.
  cbv zeta in Hi. rewrite Hi in Hrel.
  destruct (relative _ rest); [|discriminate].
  inversion Hrel; subst. exact H1.
Qed.


(** C3: for a camera that keeps seeing the board and [loops >= 1], the
    pose of lines 33-45 is obtained from exactly [loops] successive calls
    of the estimator on that camera ([ps] are their returns, in order).
    With [loops = 1] it is the return of the single call; with
    [loops > 1] every entry of its rotation (translation) is the sum of
    that entry over the sampled rotations (translations) divided by
    [loops]. *)
Theorem camera_pose_samples camera size sq loops display_frame w :
  live w size sq camera -> (1 <= loops)%Z ->
  exists fuel0 ps p w',
    (forall fuel, (fuel0 <= fuel)%nat ->
       camera_pose fuel camera size sq loops display_frame w = (Ok p, w')) /\
    sampled fuel0 camera size sq display_frame w ps w' /\
    length ps = Z.to_nat loops /\
    (exists evs, trace w' = trace w ++ evs /\
                 calls evs = repeat camera (Z.to_nat loops)) /\
    (loops = 1%Z ->
       ps = [p] /\
       chessboard_pose_estimation fuel0 camera size sq display_frame w = (Ok p, w')) /\
    ((1 < loops)%Z ->
       (forall i j, (i < 3)%nat -> (j < 3)%nat ->
          entry (fst p) i j
          = entry_sum (map fst ps) i j / of_nat (Z.to_nat loops)) /\
       (forall i, (i < 3)%nat ->
          entry (snd p) i 0
          = entry_sum (map snd ps) i 0 / of_nat (Z.to_nat loops))).
Proof.
  intros Hl Hloops.
  destruct (camera_pose_total camera size sq loops display_frame w Hl Hloops)
    as (p & w' & n & Hn).
  pose proof (Hn n (Nat.le_refl n)) as H0.
  pose proof H0 as Hinv. apply camera_pose_inv in Hinv.
  destruct Hinv as (_ & ps & Hs & Hlen & H1 & Hne).
  pose proof Hs as Hfacts. apply sampled_facts in Hfacts.
  destruct Hfacts as (_ & Hf & evs & Ht & Hcalls).
  exists n, ps, p, w'. split; [exact Hn|]. split; [exact Hs|]. split; [exact Hlen|].
  split; [|split].
  - exists evs. now rewrite Hcalls, Hlen.
  - intros ->. split; [now apply H1|]. exact H0.
  - intros Hgt. destruct Hne as [Hr Htr]; [lia|].
    assert (Hps : ps <> []) by (destruct ps; [simpl in Hlen; lia|discriminate]).
    destruct (mean0_spec 3 3 (map fst ps)) as (m & Hm & _ & He).
    { destruct ps; [congruence|discriminate]. }
    { apply Forall_map. eapply Forall_impl; [|exact Hf]. now intros ? []. }
    destruct (mean0_spec 3 1 (map snd ps)) as (m' & Hm' & _ & He').
    { destruct ps; [congruence|discriminate]. }
    { apply Forall_map. eapply Forall_impl; [|exact Hf]. now intros ? []. }
    rewrite Hr in Hm. rewrite Htr in Hm'. inversion Hm; inversion Hm'; subst m m'.
    rewrite length_map, Hlen in He, He'. split; auto.
Qed.

(** C4: take the solver at its word (a successful solve returns a pose
    that sends every object point, rotated then translated, onto its image
    point through the camera matrix).  Then the pair the estimator returns
    does that for the object grid of the board and the refined corners
    found in the frame it stopped on: it takes board coordinates to
    coordinates in the frame of this camera. *)
Theorem estimated_pose_maps_board_to_camera
    fuel camera size sq display_frame w rot trasl w' :
  (forall objp corners mtx rvec tvec,
      solvePnP objp corners mtx dist = (true, rvec, tvec) ->
      reprojects mtx (Rodrigues rvec) tvec objp corners = true) ->
  chessboard_pose_estimation fuel camera size sq display_frame w
  = (Ok (rot, trasl), w') ->
  exists j objp corners2,
    (grabbed w camera <= j)%nat /\
    object_points size sq = Some objp /\
    (let gray := cvtColor (frames (cameras_of w camera) j) in
     fst (findChessboardCorners gray size) = true /\
     corners2 = cornerSubPix gray (snd (findChessboardCorners gray size))
                  (11, 11)%nat (-1, -1)%Z criteria) /\
    length corners2 = length objp /\
    forall k, (k < length objp)%nat ->
      project (camera_matrix (intrinsics (cameras_of w camera)))
        (transform_point rot trasl (nth k objp []))
      = nth k corners2 [].
Proof.
  intros Hpnp H. apply estimation_inv in H.
  destruct H as (j & evs & Hj & He & _).
  unfold estimate_of, solve_frame in He.
  destruct (object_points size sq) as [objp|] eqn:Eo; [|discriminate].
  destruct (findChessboardCorners _ _) as [found corners] eqn:Ef.
  destruct found; [|discriminate].
  destruct (solvePnP _ _ _ _) as [[pose_found rot_vec] trasl_vec] eqn:Es.
  destruct pose_found; [|discriminate].
  inversion He; subst. apply Hpnp in Es. apply reprojects_nth in Es.
  destruct Es as [Hlen Hk].
  exists j, objp,
    (cornerSubPix (cvtColor (frames (cameras_of w camera) j)) corners
       (11, 11)%nat (-1, -1)%Z criteria).
  cbv zeta. rewrite Ef. simpl fst. simpl snd. repeat split; auto.
Qed.

(** C2, as amended: given that every rotation vector is turned into an
    exact proper rotation, every sample taken for a camera is a proper
    rotation within any tolerance, and so is the pose kept for the camera
    whenever its samples carry one and the same rotation; that is always
    so with a single sample. *)
Theorem agreeing_samples_give_rotation
    fuel camera size sq loops display_frame w p w' tol :
  0 <= tol ->
  (forall v, is_rotation 0 (Rodrigues v) = true) ->
  camera_pose fuel camera size sq loops display_frame w = (Ok p, w') ->
  exists ps,
    sampled fuel camera size sq display_frame w ps w' /\
    length ps = Z.to_nat loops /\
    Forall (fun q => is_rotation tol (fst q) = true) ps /\
    (loops = 1%Z -> is_rotation tol (fst p) = true) /\
    ((forall q q', In q ps -> In q' ps -> fst q = fst q') ->
     is_rotation tol (fst p) = true).
Proof.
  intros Htol Hrot H. apply camera_pose_inv in H.
  destruct H as (Hloops & ps & Hs & Hlen & H1 & Hne).
  assert (Hall : Forall (fun q => is_rotation tol (fst q) = true) ps).
  { eapply Forall_impl; [|eapply sampled_rodrigues; eauto].
    intros q [v ->]. apply is_rotation_weaken; auto. }
  assert (Hagree : (forall q q', In q ps -> In q' ps -> fst q = fst q') ->
                   is_rotation tol (fst p) = true).
  { intros Hag. destruct (Z.eq_dec loops 1) as [E|E].
    - rewrite (H1 E) in Hall. now inversion Hall.
    - destruct (Hne E) as [Hr _].
      destruct ps as [|q0 ps]; [simpl in Hlen; lia|].
      assert (Hq0 : is_rotation tol (fst q0) = true) by now inversion Hall.
      apply sampled_facts in Hs. destruct Hs as (_ & Hf & _).
      rewrite (mean0_equal (fst q0) (fst p) (map fst (q0 :: ps))); auto.
      + inversion Hf; subst. tauto.
      + discriminate.
      + apply Forall_map, Forall_forall. intros q Hq. apply Hag; auto using in_eq. }
  exists ps. repeat split; auto.
  intros E. rewrite (H1 E) in Hall. now inversion Hall.
Qed.

(** C6: take a list of n >= 3 cameras and exchange the cameras at two
    positions i, j >= 1, each camera yielding the same assembled transform
    [H c] in both runs.  If the first run returns [out], the second
    returns [out] with positions i - 1 and j - 1 exchanged: the transform
    of each of the two cameras has moved with the camera and kept its
    value, and every other entry is where it was. *)
Theorem swapping_cameras_permutes_output
    fuel fuel' cameras i j size sq loops display_frame w w' (H : nat -> matrix) out :
  (3 <= length cameras)%nat ->
  (1 <= i < length cameras)%nat -> (1 <= j < length cameras)%nat ->
  fst (assemble fuel cameras size sq loops display_frame w) = Ok (map H cameras) ->
  fst (assemble fuel' (swap 0%nat i j cameras) size sq loops display_frame w')
  = Ok (map H (swap 0%nat i j cameras)) ->
  fst (extrinsic_calibration fuel cameras size sq loops display_frame w) = Ok out ->
  let out' := swap [] (i - 1) (j - 1) out in
  fst (extrinsic_calibration fuel' (swap 0%nat i j cameras) size sq loops
         display_frame w') = Ok out' /\
  length out = (length cameras - 1)%nat /\
  nth (j - 1) out' [] = nth (i - 1) out [] /\
  nth (i - 1) out' [] = nth (j - 1) out [] /\
  (forall k, k <> (i - 1)%nat -> k <> (j - 1)%nat -> nth k out' [] = nth k out []).
Proof.
  intros Hn Hi Hj Ha Ha' Hout out'.
  destruct cameras as [|c0 cs]; [simpl in Hn; lia|]. simpl length in *.
  rewrite swap_cons in * by lia.
  set (cs' := swap 0%nat (i - 1) (j - 1) cs) in *.
  set (rel := fun h => match inv h with
                       | Some H_inv => matmul (H c0) H_inv
                       | None => []
                       end).
  rewrite extrinsic_split in Hout by (simpl; lia).
  destruct (assemble fuel (c0 :: cs) size sq loops display_frame w) as [[hs|e|] w2];
    try discriminate.
  simpl in Ha. inversion Ha; subst hs. clear Ha.
  destruct (relative (H c0) (H c0 :: map H cs)) as [every|] eqn:Er; [|discriminate].
  simpl in Hout. inversion Hout; subst out. clear Hout.
  pose proof (relative_some_inv _ _ _ Er) as Hinv.
  apply relative_map in Er. fold rel in Er. simpl in Er. subst every.
  cbn [tl] in *.
  assert (Hlen : length (map rel (map H cs)) = length cs) by now rewrite !length_map.
  assert (Hout' : map rel (map H cs') = out').
  { unfold out', cs'. rewrite (swap_map H 0%nat (H 0%nat)) by lia.
    apply swap_map; rewrite length_map; lia. }
  assert (Hrun : fst (extrinsic_calibration fuel' (c0 :: cs') size sq loops
                        display_frame w') = Ok out').
  { rewrite extrinsic_split by (simpl; unfold cs'; rewrite swap_length; lia).
    destruct (assemble fuel' (c0 :: cs') size sq loops display_frame w')
      as [[hs|e|] w3]; try discriminate.
    simpl in Ha'. inversion Ha'; subst hs. clear Ha'.
    destruct (relative_total (H c0) (H c0 :: map H cs')) as [every' Er'].
    { inversion Hinv; subst. constructor; auto.
      rewrite Forall_forall in *. intros h Hh. apply in_map_iff in Hh.
      destruct Hh as (c & <- & Hc). apply swap_In in Hc; try lia.
      match goal with Hall : forall x, In x (map H cs) -> _ |- _ => apply Hall end.
      now apply in_map. }
    rewrite Er'. apply relative_map in Er'. fold rel in Er'. simpl in Er'.
    subst every'. simpl. now rewrite Hout'. }
  split; [exact Hrun|]. split; [rewrite Hlen; lia|].
  unfold out'. repeat split.
  - destruct (Nat.eq_dec (j - 1) (i - 1)) as [E|E].
    + rewrite (swap_nth [] []) by (rewrite !length_map; lia).
      rewrite E, Nat.eqb_refl. reflexivity.
    + rewrite (swap_nth [] []) by (rewrite !length_map; lia).
      apply Nat.eqb_neq in E. now rewrite E, Nat.eqb_refl.
  - rewrite (swap_nth [] []) by (rewrite !length_map; lia).
    now rewrite Nat.eqb_refl.
  - intros k Hki Hkj. destruct (Nat.lt_ge_cases k (length cs)) as [Hk|Hk].
    + rewrite (swap_nth [] []) by (rewrite !length_map; lia).
      apply Nat.eqb_neq in Hki, Hkj. now rewrite Hki, Hkj.
    + rewrite !nth_overflow; auto; rewrite ?swap_length, !length_map; lia.
Qed.

End Claims.

(** ** The simulated rig at work *)

Lemma rig_rodrigues_rotation v : is_rotation 0 (Rig.rodrigues v) = true.
Proof. unfold Rig.rodrigues. destruct (Qc_eqb _ _); vm_compute; reflexivity. Qed.

Lemma rig_solve_sound objp corners mtx cands rvec tvec :
  Rig.solve objp corners mtx cands = (true, rvec, tvec) ->
  reprojects mtx (Rig.rodrigues rvec) tvec objp corners = true.
Proof.
  induction cands as [|[rv tv] rest IH]; simpl; [discriminate|].
  destruct (reprojects mtx (Rig.rodrigues rv) tv objp corners) eqn:E; [|exact IH].
  intros H; inversion H; subst. exact E.
Qed.

Lemma rig_live c : live Rig.start Rig.board Rig.square c.
Proof.
  intros k. destruct c as [|[|c]].
  - exists k. split; [lia|].
    change (frames (cameras_of Rig.start 0) k) with Rig.upright.
    vm_compute. discriminate.
  - exists k. split; [lia|].
    change (frames (cameras_of Rig.start 1) k)
      with (if Nat.even k then Rig.upright else Rig.turned).
    destruct (Nat.even k); vm_compute; discriminate.
  - exists (3 * k)%nat. split; [lia|].
    change (frames (cameras_of Rig.start (S (S c))) (3 * k))
      with (if Nat.eqb ((3 * k) mod 3) 1 then Rig.nothing else Rig.turned).
    rewrite Nat.mul_comm, Nat.Div0.mod_mul. cbn [Nat.eqb].
    vm_compute. discriminate.
Qed.

Lemma ok_pose_eq {cv : OpenCV} (r : result (matrix * matrix) * World) rot tr :
  match fst r with
  | Ok p => matrix_eqb (fst p) rot && matrix_eqb (snd p) tr
  | _ => false
  end = true ->
  r = (Ok (rot, tr), snd r).
Proof.
  destruct r as [[[a b]|e|] w]; simpl; try discriminate.
  intros H. apply andb_true_iff in H. destruct H as [Ha Hb].
  apply matrix_eqb_eq in Ha, Hb. now subst.
Qed.

Lemma ok_list_eq (r : result (list matrix)) l :
  match r with Ok x => matrices_eqb x l | _ => false end = true -> r = Ok l.
Proof.
  destruct r as [x|e|]; try discriminate. intros H.
  apply matrices_eqb_eq in H. now subst.
Qed.

Lemma nonzero_by_test x : Qc_eqb x 0 = false -> x <> 0.
Proof. unfold Qc_eqb. destruct (Qc_eq_dec x 0); [discriminate|auto]. Qed.

(** ** The claims on the rig *)

Lemma fewer_than_two_cameras_fails_witness :
  (length [0%nat] < 2)%nat /\
  extrinsic_calibration 5 [0%nat] Rig.board Rig.square 1 false Rig.start
  = (Raise AssertionError, Rig.start).
Proof.
  split; [simpl; lia|].
  apply (fewer_than_two_cameras_fails 5 [0%nat] Rig.board Rig.square 1 false Rig.start).
  simpl; lia.
Defined.

Lemma warm_up_precedes_sampling_witness :
  (2 <= length [0; 1; 2]%nat)%nat /\
  exists rest,
    trace (snd (extrinsic_calibration 5 [0; 1; 2]%nat Rig.board Rig.square 1 false
                  Rig.start))
    = trace Rig.start ++ warm_events [0; 1; 2]%nat ++ rest /\
    calls (warm_events [0; 1; 2]%nat) = [] /\
    (forall c, In c [0; 1; 2]%nat -> (10 <= captures c (warm_events [0; 1; 2]%nat))%nat) /\
    (forall pre c' post,
        warm_events [0; 1; 2]%nat ++ rest = pre ++ GetIntrinsics c' :: post ->
        forall c, In c [0; 1; 2]%nat -> (10 <= captures c pre)%nat).
Proof.
  split; [simpl; lia|].
  apply (warm_up_precedes_sampling 5 [0; 1; 2]%nat Rig.board Rig.square 1 false
           Rig.start).
  simpl; lia.
Defined.

Lemma extrinsic_calibration_returns_witness :
  (2 <= length [0; 1; 2]%nat)%nat /\ (1 <= 1)%Z /\
  (forall c, In c [0; 1; 2]%nat -> live Rig.start Rig.board Rig.square c) /\
  exists fuel0 hs,
    length hs = length [0; 1; 2]%nat /\
    Forall2 (assembled_for (cv := Rig.simulated) fuel0 Rig.board Rig.square 1 false)
      [0; 1; 2]%nat hs /\
    (forall fuel, (fuel0 <= fuel)%nat ->
       fst (assemble fuel [0; 1; 2]%nat Rig.board Rig.square 1 false Rig.start)
       = Ok hs) /\
    (1%Z = 1%Z -> (forall v, det 3 (@Rodrigues Rig.simulated v) <> 0) ->
     Forall (fun h => det 4 h <> 0) hs) /\
    (Forall (fun h => det 4 h <> 0) hs ->
     exists every out,
       relative (nth 0 hs []) hs = Some every /\
       length every = length [0; 1; 2]%nat /\ out = tl every /\
       (forall fuel, (fuel0 <= fuel)%nat ->
          fst (extrinsic_calibration fuel [0; 1; 2]%nat Rig.board Rig.square 1 false
                 Rig.start) = Ok out) /\
       length out = (length [0; 1; 2]%nat - 1)%nat /\
       forall k, (k < length [0; 1; 2]%nat - 1)%nat ->
         exists H_inv,
           inv (nth (S k) hs []) = Some H_inv /\
           matmul (nth (S k) hs []) H_inv = eye 4 /\
           nth k out [] = matmul (nth 0 hs []) H_inv).
Proof.
  split; [simpl; lia|]. split; [lia|]. split; [intros c _; apply rig_live|].
  apply (extrinsic_calibration_returns [0; 1; 2]%nat Rig.board Rig.square 1 false
           Rig.start).
  - simpl; lia.
  - lia.
  - intros c _. apply rig_live.
Defined.

Lemma returned_transforms_are_affine_witness :
  (1 <= 1)%Z /\
  fst (extrinsic_calibration 5 [0; 1; 2]%nat Rig.board Rig.square 1 false Rig.start)
  = Ok [eye 4; Rig.turned_seen_from_upright] /\
  Forall (fun m => has_shape 4 4 m = true /\ nth 3 m [] = [0; 0; 0; 1])
    [eye 4; Rig.turned_seen_from_upright].
Proof.
  assert (H : fst (extrinsic_calibration 5 [0; 1; 2]%nat Rig.board Rig.square 1 false
                     Rig.start) = Ok [eye 4; Rig.turned_seen_from_upright]).
  { apply ok_list_eq. vm_compute. reflexivity. }
  split; [lia|]. split; [exact H|].
  exact (returned_transforms_are_affine 5 [0; 1; 2]%nat Rig.board Rig.square 1 false
           Rig.start _ (Z.le_refl 1) H).
Defined.

Lemma homogeneous_times_inverse_witness :
  has_shape 3 3 Rig.quarter_turn = true /\ has_shape 3 1 Rig.ahead = true /\
  det 3 Rig.quarter_turn <> 0 /\
  exists hom H_inv,
    homogeneous Rig.quarter_turn Rig.ahead = Some hom /\ inv hom = Some H_inv /\
    matmul hom H_inv = eye 4 /\ matmul H_inv hom = eye 4 /\
    forall rest every,
      relative hom (hom :: rest) = Some every -> nth 0 every [] = eye 4.
Proof.
  assert (Hd : det 3 Rig.quarter_turn <> 0).
  { apply nonzero_by_test. vm_compute. reflexivity. }
  split; [reflexivity|]. split; [reflexivity|]. split; [exact Hd|].
  exact (homogeneous_times_inverse Rig.quarter_turn Rig.ahead eq_refl eq_refl Hd).
Defined.

Lemma camera_pose_samples_witness :
  live Rig.start Rig.board Rig.square 1 /\ (1 <= 2)%Z /\
  exists fuel0 ps p w',
    (forall fuel, (fuel0 <= fuel)%nat ->
       camera_pose fuel 1 Rig.board Rig.square 2 false Rig.start = (Ok p, w')) /\
    sampled fuel0 1 Rig.board Rig.square false Rig.start ps w' /\
    length ps = Z.to_nat 2 /\
    (exists evs, trace w' = trace Rig.start ++ evs /\
                 calls evs = repeat 1%nat (Z.to_nat 2)) /\
    (2%Z = 1%Z ->
       ps = [p] /\
       chessboard_pose_estimation fuel0 1 Rig.board Rig.square false Rig.start
       = (Ok p, w')) /\
    ((1 < 2)%Z ->
       (forall i j, (i < 3)%nat -> (j < 3)%nat ->
          entry (fst p) i j = entry_sum (map fst ps) i j / of_nat (Z.to_nat 2)) /\
       (forall i, (i < 3)%nat ->
          entry (snd p) i 0 = entry_sum (map snd ps) i 0 / of_nat (Z.to_nat 2))).
Proof.
  split; [apply rig_live|]. split; [lia|].
  apply (camera_pose_samples 1 Rig.board Rig.square 2 false Rig.start).
  - apply rig_live.
  - lia.
Defined.

Lemma estimated_pose_maps_board_to_camera_witness :
  (forall objp corners mtx rvec tvec,
      @solvePnP Rig.simulated objp corners mtx dist = (true, rvec, tvec) ->
      reprojects mtx (@Rodrigues Rig.simulated rvec) tvec objp corners = true) /\
  chessboard_pose_estimation 5 2 Rig.board Rig.square false Rig.start
  = (Ok (Rig.quarter_turn, Rig.ahead),
     snd (chessboard_pose_estimation 5 2 Rig.board Rig.square false Rig.start)) /\
  exists j objp corners2,
    (grabbed Rig.start 2 <= j)%nat /\
    object_points Rig.board Rig.square = Some objp /\
    (let gray := cvtColor (frames (cameras_of Rig.start 2) j) in
     fst (findChessboardCorners gray Rig.board) = true /\
     corners2 = cornerSubPix gray (snd (findChessboardCorners gray Rig.board))
                  (11, 11)%nat (-1, -1)%Z criteria) /\
    length corners2 = length objp /\
    forall k, (k < length objp)%nat ->
      project (camera_matrix (intrinsics (cameras_of Rig.start 2)))
        (transform_point Rig.quarter_turn Rig.ahead (nth k objp []))
      = nth k corners2 [].
Proof.
  assert (Hpnp : forall objp corners mtx rvec tvec,
             @solvePnP Rig.simulated objp corners mtx dist = (true, rvec, tvec) ->
             reprojects mtx (@Rodrigues Rig.simulated rvec) tvec objp corners = true).
  { intros objp corners mtx rvec tvec. apply rig_solve_sound. }
  assert (Hrun : chessboard_pose_estimation 5 2 Rig.board Rig.square false Rig.start
                 = (Ok (Rig.quarter_turn, Rig.ahead),
                    snd (chessboard_pose_estimation 5 2 Rig.board Rig.square false
                           Rig.start))).
  { apply ok_pose_eq. vm_compute. reflexivity. }
  split; [exact Hpnp|]. split; [exact Hrun|].
  exact (estimated_pose_maps_board_to_camera 5 2 Rig.board Rig.square false Rig.start
           Rig.quarter_turn Rig.ahead _ Hpnp Hrun).
Defined.

Lemma agreeing_samples_give_rotation_witness :
  0 <= Q2Qc (1 # 1000) /\
  (forall v, is_rotation 0 (@Rodrigues Rig.simulated v) = true) /\
  camera_pose 5 0 Rig.board Rig.square 2 false Rig.start
  = (Ok (eye 3, Rig.ahead),
     snd (camera_pose 5 0 Rig.board Rig.square 2 false Rig.start)) /\
  exists ps,
    sampled 5 0 Rig.board Rig.square false Rig.start ps
      (snd (camera_pose 5 0 Rig.board Rig.square 2 false Rig.start)) /\
    length ps = Z.to_nat 2 /\
    Forall (fun q => is_rotation (Q2Qc (1 # 1000)) (fst q) = true) ps /\
    (2%Z = 1%Z -> is_rotation (Q2Qc (1 # 1000)) (fst (eye 3, Rig.ahead)) = true) /\
    ((forall q q', In q ps -> In q' ps -> fst q = fst q') ->
     is_rotation (Q2Qc (1 # 1000)) (fst (eye 3, Rig.ahead)) = true).
Proof.
  assert (Htol : 0 <= Q2Qc (1 # 1000)) by (apply Qc_leb_le; vm_compute; reflexivity).
  assert (Hrun : camera_pose 5 0 Rig.board Rig.square 2 false Rig.start
                 = (Ok (eye 3, Rig.ahead),
                    snd (camera_pose 5 0 Rig.board Rig.square 2 false Rig.start))).
  { apply ok_pose_eq. vm_compute. reflexivity. }
  split; [exact Htol|]. split; [exact rig_rodrigues_rotation|]. split; [exact Hrun|].
  exact (agreeing_samples_give_rotation 5 0 Rig.board Rig.square 2 false Rig.start
           (eye 3, Rig.ahead) _ (Q2Qc (1 # 1000)) Htol rig_rodrigues_rotation Hrun).
Defined.

Lemma swapping_cameras_permutes_output_witness :
  (3 <= length [0; 1; 2]%nat)%nat /\
  (1 <= 1 < length [0; 1; 2]%nat)%nat /\ (1 <= 2 < length [0; 1; 2]%nat)%nat /\
  fst (assemble 5 [0; 1; 2]%nat Rig.board Rig.square 1 false Rig.start)
  = Ok (map Rig.assembled [0; 1; 2]%nat) /\
  fst (assemble 5 (swap 0%nat 1 2 [0; 1; 2]%nat) Rig.board Rig.square 1 false Rig.start)
  = Ok (map Rig.assembled (swap 0%nat 1 2 [0; 1; 2]%nat)) /\
  fst (extrinsic_calibration 5 [0; 1; 2]%nat Rig.board Rig.square 1 false Rig.start)
  = Ok [eye 4; Rig.turned_seen_from_upright] /\
  fst (extrinsic_calibration 5 (swap 0%nat 1 2 [0; 1; 2]%nat) Rig.board Rig.square 1
         false Rig.start)
  = Ok (swap [] (1 - 1) (2 - 1) [eye 4; Rig.turned_seen_from_upright]).
Proof.
  assert (Ha : fst (assemble 5 [0; 1; 2]%nat Rig.board Rig.square 1 false Rig.start)
               = Ok (map Rig.assembled [0; 1; 2]%nat)).
  { apply ok_list_eq. vm_compute. reflexivity. }
  assert (Ha' : fst (assemble 5 (swap 0%nat 1 2 [0; 1; 2]%nat) Rig.board Rig.square 1
                       false Rig.start)
                = Ok (map Rig.assembled (swap 0%nat 1 2 [0; 1; 2]%nat))).
  { apply ok_list_eq. vm_compute. reflexivity. }
  assert (Hout : fst (extrinsic_calibration 5 [0; 1; 2]%nat Rig.board Rig.square 1
                        false Rig.start)
                 = Ok [eye 4; Rig.turned_seen_from_upright]).
  { apply ok_list_eq. vm_compute. reflexivity. }
  assert (Hn : (3 <= length [0; 1; 2]%nat)%nat) by (simpl; lia).
  assert (Hi : (1 <= 1 < length [0; 1; 2]%nat)%nat) by (simpl; lia).
  assert (Hj : (1 <= 2 < length [0; 1; 2]%nat)%nat) by (simpl; lia).
  repeat (split; [assumption|]).
  exact (proj1 (swapping_cameras_permutes_output 5 5 [0; 1; 2]%nat 1 2 Rig.board
                  Rig.square 1 false Rig.start Rig.start Rig.assembled _
                  Hn Hi Hj Ha Ha' Hout)).
Defined.

(** C2, as stated, fails: every rotation of the rig is an exact proper
    rotation, yet with two samples camera 1 (which sees the board upright,
    then turned a quarter turn) is given the pose whose rotation is the
    entry-wise mean of the two, of determinant 1/2; the calibration of
    cameras 0 and 1 then returns normally. *)
Lemma mean_of_rotations_is_no_rotation :
  (forall v, is_rotation 0 (@Rodrigues Rig.simulated v) = true) /\
  camera_pose 5 1 Rig.board Rig.square 2 false Rig.start
  = (Ok (Rig.blend, Rig.ahead),
     snd (camera_pose 5 1 Rig.board Rig.square 2 false Rig.start)) /\
  det 3 Rig.blend = Q2Qc (1 # 2) /\
  is_rotation (Q2Qc (1 # 1000)) Rig.blend = false /\
  exists out,
    fst (extrinsic_calibration 5 [0; 1]%nat Rig.board Rig.square 2 false Rig.start)
    = Ok [out] /\
    det 4 out = Q2Qc 2.
Proof.
  split; [exact rig_rodrigues_rotation|]. split; [|split; [|split]].
  - apply ok_pose_eq. vm_compute. reflexivity.
  - apply Qc_eqb_eq. vm_compute. reflexivity.
  - vm_compute. reflexivity.
  - exists [[1; 1; 0; 0]; [- (1); 1; 0; 0]; [0; 0; 1; 0]; [0; 0; 0; 1]]. split.
    + apply ok_list_eq. vm_compute. reflexivity.
    + apply Qc_eqb_eq. vm_compute. reflexivity.
Qed.

(** ** Further properties of the two functions *)

Section Confinement.

Context {cv : OpenCV}.

Lemma keeps_bind {A B} cs Q (m : M A) (k : A -> M B) :
  keeps cs Q m -> (forall a, keeps cs Q (k a)) -> keeps cs Q (bind m k).
Proof.
  intros Hm Hk w. unfold bind.
  destruct (Hm w) as (Hc & Hg & Hle & evs & Ht & HQ).
  destruct (m w) as [[a|e|] w1]; simpl in *; try (repeat split; eauto; fail).
  destruct (Hk a w1) as (Hc' & Hg' & Hle' & evs' & Ht' & HQ').
  split; [congruence|]. split; [|split].
  - intros c Hn. rewrite Hg', Hg; auto.
  - intros c. specialize (Hle c). specialize (Hle' c). lia.
  - exists (evs ++ evs'). split.
    + rewrite Ht', Ht, app_assoc. reflexivity.
    + apply Forall_app. auto.
Qed.

Lemma keeps_pure {A} cs Q (r : result A) : keeps cs Q (fun w => (r, w)).
Proof.
  intros w. simpl. repeat split; auto. exists []. now rewrite app_nil_r.
Qed.

Lemma keeps_of_option {A} cs Q e (o : option A) : keeps cs Q (of_option e o).
Proof. destruct o; apply keeps_pure. Qed.

Lemma keeps_emit cs Q e : Q e -> keeps cs Q (emit e).
Proof.
  intros He w. simpl. repeat split; auto. exists [e]. split; auto.
Qed.

Lemma keeps_get_intrinsics cs Q c : Q (GetIntrinsics c) -> keeps cs Q (get_intrinsics c).
Proof.
  intros He w. simpl. repeat split; auto. exists [GetIntrinsics c]. split; auto.
Qed.

Lemma keeps_get_rgb cs Q c : In c cs -> Q (GetRgb c) -> keeps cs Q (get_rgb c).
Proof.
  intros Hin He w. simpl. split; [reflexivity|]. split; [|split].
  - intros c' Hn. destruct (Nat.eqb_spec c' c); [subst; contradiction|reflexivity].
  - intros c'. destruct (Nat.eqb c' c); lia.
  - exists [GetRgb c]. split; auto.
Qed.

Lemma keeps_show cs Q display_frame :
  (display_frame = true -> Q NamedWindow /\ Q Imshow /\ Q WaitKey) ->
  keeps cs Q (show display_frame).
Proof.
  intros H. unfold show. destruct display_frame; [|apply keeps_pure].
  destruct (H eq_refl) as (_ & Hi & Hw).
  apply keeps_bind; [now apply keeps_emit|]. intros _. now apply keeps_emit.
Qed.

Lemma keeps_pose_loop cs Q camera size objp mtx display_frame fuel :
  allowed cs display_frame Q -> In camera cs ->
  keeps cs Q (pose_loop fuel camera size objp mtx display_frame).
Proof.
  intros [Hdev Hwin] Hin. induction fuel as [|fuel IH]; [apply keeps_pure|].
  cbn [pose_loop]. apply keeps_bind.
  { apply keeps_get_rgb; auto. now apply Hdev. }
  intros img. destruct (findChessboardCorners _ _) as [found corners].
  destruct found.
  - destruct (solvePnP _ _ _ _) as [[pose_found rot_vec] trasl_vec].
    apply keeps_bind; [now apply keeps_show|]. intros _.
    destruct pose_found; [apply keeps_pure|exact IH].
  - apply keeps_bind; [now apply keeps_show|]. intros _. exact IH.
Qed.

Lemma keeps_estimation cs Q fuel camera size sq display_frame :
  allowed cs display_frame Q -> In camera cs ->
  keeps cs Q (chessboard_pose_estimation fuel camera size sq display_frame).
Proof.
  intros Hal Hin. unfold chessboard_pose_estimation.
  apply keeps_bind.
  { apply keeps_get_intrinsics. now apply (proj1 Hal). }
  intros intr. apply keeps_bind; [apply keeps_of_option|]. intros objp.
  apply keeps_bind.
  { destruct display_frame; [|apply keeps_pure].
    apply keeps_emit. now apply (proj2 Hal). }
  intros _. now apply keeps_pose_loop.
Qed.

Lemma keeps_sample_loop cs Q fuel camera size sq display_frame k :
  allowed cs display_frame Q -> In camera cs ->
  forall rots trasls,
  keeps cs Q (sample_loop fuel camera size sq display_frame k rots trasls).
Proof.
  intros Hal Hin. induction k as [|k IH]; intros rots trasls; cbn [sample_loop].
  - apply keeps_pure.
  - apply keeps_bind; [now apply keeps_estimation|]. intros p. apply IH.
Qed.

Lemma keeps_camera_pose cs Q fuel camera size sq loops display_frame :
  allowed cs display_frame Q -> In camera cs ->
  keeps cs Q (camera_pose fuel camera size sq loops display_frame).
Proof.
  intros Hal Hin. unfold camera_pose. destruct (loops =? 1)%Z.
  - now apply keeps_estimation.
  - apply keeps_bind; [now apply keeps_sample_loop|]. intros s.
    apply keeps_bind; [apply keeps_of_option|]. intros rot.
    apply keeps_bind; [apply keeps_of_option|]. intros tr. apply keeps_pure.
Qed.

Lemma keeps_homogeneous_matrices cs Q fuel size sq loops display_frame cameras :
  allowed cs display_frame Q -> (forall c, In c cameras -> In c cs) ->
  keeps cs Q (homogeneous_matrices fuel cameras size sq loops display_frame).
Proof.
  intros Hal. induction cameras as [|camera rest IH]; intros Hsub;
    cbn [homogeneous_matrices].
  - apply keeps_pure.
  - apply keeps_bind; [apply keeps_camera_pose; auto using in_eq|]. intros p.
    apply keeps_bind; [apply keeps_of_option|]. intros hom.
    apply keeps_bind; [apply IH; auto using in_cons|]. intros hs. apply keeps_pure.
Qed.

Lemma keeps_discard_frames cs Q n camera :
  In camera cs -> Q (GetRgb camera) -> keeps cs Q (discard_frames n camera).
Proof.
  intros Hin He. induction n as [|n IH]; cbn [discard_frames].
  - apply keeps_pure.
  - apply keeps_bind; [now apply keeps_get_rgb|]. intros _. exact IH.
Qed.

Lemma keeps_warm_up cs Q cameras :
  (forall c, In c cameras -> In c cs /\ Q (GetRgb c)) -> keeps cs Q (warm_up cameras).
Proof.
  induction cameras as [|camera rest IH]; intros H; cbn [warm_up].
  - apply keeps_pure.
  - destruct (H camera (in_eq _ _)) as [Hin He].
    apply keeps_bind; [now apply keeps_discard_frames|]. intros _.
    apply IH. auto using in_cons.
Qed.

Lemma keeps_extrinsic_calibration Q fuel cameras size sq loops display_frame :
  allowed cameras display_frame Q ->
  keeps cameras Q (extrinsic_calibration fuel cameras size sq loops display_frame).
Proof.
  intros Hal. unfold extrinsic_calibration.
  destruct (2 <=? length cameras)%nat; [|apply keeps_pure].
  apply keeps_bind.
  { apply keeps_warm_up. intros c Hin. split; auto. now apply (proj1 Hal). }
  intros _. apply keeps_bind; [now apply keeps_homogeneous_matrices|]. intros hs.
  apply keeps_bind; [|intros out; apply keeps_pure].
  unfold cam1_H_camX. destruct hs; [apply keeps_pure|apply keeps_of_option].
Qed.

Lemma discard_frames_grabbed n camera : forall w c,
  grabbed (snd (discard_frames n camera w)) c
  = (grabbed w c + if Nat.eqb c camera then n else 0)%nat.
Proof.
  induction n as [|n IH]; intros w c; cbn [discard_frames].
  - simpl. destruct (Nat.eqb c camera); lia.
  - unfold bind, get_rgb. rewrite IH. simpl. destruct (Nat.eqb c camera); lia.
Qed.

Lemma warm_up_grabbed cameras : forall w c,
  grabbed (snd (warm_up cameras w)) c
  = (grabbed w c + 10 * count_occ Nat.eq_dec cameras c)%nat.
Proof.
  induction cameras as [|camera rest IH]; intros w c; cbn [warm_up].
  - simpl. lia.
  - unfold bind. destruct (discard_frames_run 10 camera w) as (w1 & Hr & _).
    pose proof (discard_frames_grabbed 10 camera w c) as Hg.
    rewrite Hr in *. simpl snd in Hg. rewrite IH, Hg. cbn [count_occ].
    destruct (Nat.eq_dec camera c) as [->|Hne].
    + rewrite Nat.eqb_refl. lia.
    + destruct (Nat.eqb_spec c camera); [congruence|lia].
Qed.

(** X1: a calibration never touches a camera that is not in its list: it
    leaves the stream of such a camera where it was and makes no call on
    it, whatever the outcome. *)
Theorem unlisted_camera_untouched fuel cameras size sq loops display_frame w c :
  ~ In c cameras ->
  let w' := snd (extrinsic_calibration fuel cameras size sq loops display_frame w) in
  cameras_of w' = cameras_of w /\
  grabbed w' c = grabbed w c /\
  exists evs, trace w' = trace w ++ evs /\
    captures c evs = 0%nat /\ ~ In c (calls evs).
Proof.
  intros Hn w'.
  set (Q := fun e => match e with
                     | GetRgb c' | GetIntrinsics c' => c' <> c
                     | _ => True
                     end).
  destruct (keeps_extrinsic_calibration Q fuel cameras size sq loops display_frame)
    with (w := w) as (Hc & Hg & _ & evs & Ht & HQ).
  { split; [|simpl; auto]. intros c' Hin. simpl. split; congruence. }
  split; [exact Hc|]. split; [now apply Hg|].
  exists evs. split; [exact Ht|]. clear - HQ.
  induction HQ as [|e evs He _ [IH1 IH2]]; [split; auto|].
  unfold captures, calls in *. simpl.
  destruct e as [c'|c'| | |]; simpl in *; auto.
  - destruct (Nat.eqb_spec c' c); [contradiction|auto].
  - split; auto. intros [E|E]; auto.
Qed.

(** X2: without [display_frame] a calibration makes no window call at all:
    every event it adds to the trace is a [get_rgb] or a
    [get_intrinsics] on a listed camera. *)
Theorem no_window_without_display fuel cameras size sq loops w :
  exists evs,
    trace (snd (extrinsic_calibration fuel cameras size sq loops false w))
    = trace w ++ evs /\
    Forall (fun e => is_window e = false /\
                     exists c, In c cameras /\ (e = GetRgb c \/ e = GetIntrinsics c))
           evs.
Proof.
  destruct (keeps_extrinsic_calibration
              (fun e => is_window e = false /\
                 exists c, In c cameras /\ (e = GetRgb c \/ e = GetIntrinsics c))
              fuel cameras size sq loops false) with (w := w)
    as (_ & _ & _ & evs & Ht & HQ); eauto.
  split; [|discriminate]. intros c Hin. split; (split; [reflexivity|eauto]).
Qed.

(** X3: a calibration on two or more cameras consumes, whatever its
    outcome, at least ten frames for each occurrence of a camera in the
    list (a camera listed twice loses twenty), and never rewinds a
    stream. *)
Theorem warm_up_consumes_frames fuel cameras size sq loops display_frame w c :
  (2 <= length cameras)%nat ->
  (grabbed w c + 10 * count_occ Nat.eq_dec cameras c
   <= grabbed (snd (extrinsic_calibration fuel cameras size sq loops display_frame w)) c)%nat.
Proof.
  intros Hn. unfold extrinsic_calibration.
  apply Nat.leb_le in Hn. rewrite Hn. unfold bind at 1.
  pose proof (warm_up_grabbed cameras w c) as Hg.
  destruct (warm_up_run cameras w) as (w1 & Hr & _). rewrite Hr in *.
  simpl snd in Hg. rewrite <- Hg.
  match goal with |- context [snd (?m w1)] =>
    assert (Hk : keeps cameras (fun _ => True) m) end.
  { apply keeps_bind.
    - apply keeps_homogeneous_matrices; auto. split; auto.
    - intros hs. apply keeps_bind; [|intros out; apply keeps_pure].
      unfold cam1_H_camX. destruct hs; [apply keeps_pure|apply keeps_of_option]. }
  destruct (Hk w1) as (_ & _ & Hle & _). apply Hle.
Qed.

End Confinement.

Section Display.

Context {cv : OpenCV}.

Lemma same_devices_refl w : same_devices w w.
Proof. split; auto. Qed.

Lemma agree_bind {A B} (m1 m2 : M A) (k1 k2 : A -> M B) :
  agree m1 m2 -> (forall a, agree (k1 a) (k2 a)) -> agree (bind m1 k1) (bind m2 k2).
Proof.
  intros Hm Hk w1 w2 Hs. unfold bind. destruct (Hm w1 w2 Hs) as [Hr Hs'].
  destruct (m1 w1) as [[a|e|] w1'], (m2 w2) as [[a'|e'|] w2']; simpl in *;
    try discriminate;
    try (inversion Hr; subst; split; [reflexivity|assumption]).
  inversion Hr; subst. now apply Hk.
Qed.

Lemma agree_pure {A} (r : result A) : agree (fun w => (r, w)) (fun w => (r, w)).
Proof. intros w1 w2 Hs. simpl. auto. Qed.

Lemma agree_of_option {A} e (o : option A) : agree (of_option e o) (of_option e o).
Proof. destruct o; apply agree_pure. Qed.

Lemma agree_get_rgb c : agree (get_rgb c) (get_rgb c).
Proof.
  intros w1 w2 [Hc Hg]. simpl. split.
  - now rewrite Hc, Hg.
  - split; simpl; auto. intros c'. rewrite !Hg. reflexivity.
Qed.

Lemma agree_get_intrinsics c : agree (get_intrinsics c) (get_intrinsics c).
Proof.
  intros w1 w2 [Hc Hg]. simpl. split; [now rewrite Hc|]. split; auto.
Qed.

Lemma agree_show d1 d2 : agree (show d1) (show d2).
Proof.
  intros w1 w2 [Hc Hg]. destruct d1, d2; simpl; split; auto; split; auto.
Qed.

Lemma agree_window (d1 d2 : bool) :
  agree (if d1 then emit NamedWindow else ret tt) (if d2 then emit NamedWindow else ret tt).
Proof.
  intros w1 w2 [Hc Hg]. destruct d1, d2; simpl; split; auto; split; auto.
Qed.

Lemma agree_pose_loop camera size objp mtx d1 d2 fuel :
  agree (pose_loop fuel camera size objp mtx d1) (pose_loop fuel camera size objp mtx d2).
Proof.
  induction fuel as [|fuel IH]; [apply agree_pure|].
  cbn [pose_loop]. apply agree_bind; [apply agree_get_rgb|].
  intros img. destruct (findChessboardCorners _ _) as [found corners].
  destruct found.
  - destruct (solvePnP _ _ _ _) as [[pose_found rot_vec] trasl_vec].
    apply agree_bind; [apply agree_show|]. intros _.
    destruct pose_found; [apply agree_pure|exact IH].
  - apply agree_bind; [apply agree_show|]. intros _. exact IH.
Qed.

Lemma agree_estimation fuel camera size sq d1 d2 :
  agree (chessboard_pose_estimation fuel camera size sq d1)
        (chessboard_pose_estimation fuel camera size sq d2).
Proof.
  unfold chessboard_pose_estimation.
  apply agree_bind; [apply agree_get_intrinsics|]. intros intr.
  apply agree_bind; [apply agree_of_option|]. intros objp.
  apply agree_bind; [apply agree_window|]. intros _. apply agree_pose_loop.
Qed.

Lemma agree_sample_loop fuel camera size sq d1 d2 k : forall rots trasls,
  agree (sample_loop fuel camera size sq d1 k rots trasls)
        (sample_loop fuel camera size sq d2 k rots trasls).
Proof.
  induction k as [|k IH]; intros rots trasls; cbn [sample_loop].
  - apply agree_pure.
  - apply agree_bind; [apply agree_estimation|]. intros p. apply IH.
Qed.

Lemma agree_camera_pose fuel camera size sq loops d1 d2 :
  agree (camera_pose fuel camera size sq loops d1)
        (camera_pose fuel camera size sq loops d2).
Proof.
  unfold camera_pose. destruct (loops =? 1)%Z.
  - apply agree_estimation.
  - apply agree_bind; [apply agree_sample_loop|]. intros s.
    apply agree_bind; [apply agree_of_option|]. intros rot.
    apply agree_bind; [apply agree_of_option|]. intros tr. apply agree_pure.
Qed.

Lemma agree_homogeneous_matrices fuel size sq loops d1 d2 cameras :
  agree (homogeneous_matrices fuel cameras size sq loops d1)
        (homogeneous_matrices fuel cameras size sq loops d2).
Proof.
  induction cameras as [|camera rest IH]; cbn [homogeneous_matrices].
  - apply agree_pure.
  - apply agree_bind; [apply agree_camera_pose|]. intros p.
    apply agree_bind; [apply agree_of_option|]. intros hom.
    apply agree_bind; [exact IH|]. intros hs. apply agree_pure.
Qed.

Lemma agree_discard_frames n camera :
  agree (discard_frames n camera) (discard_frames n camera).
Proof.
  induction n as [|n IH]; cbn [discard_frames]; [apply agree_pure|].
  apply agree_bind; [apply agree_get_rgb|]. intros _. exact IH.
Qed.

Lemma agree_warm_up cameras : agree (warm_up cameras) (warm_up cameras).
Proof.
  induction cameras as [|camera rest IH]; cbn [warm_up]; [apply agree_pure|].
  apply agree_bind; [apply agree_discard_frames|]. intros _. exact IH.
Qed.

Lemma agree_extrinsic_calibration fuel cameras size sq loops d1 d2 :
  agree (extrinsic_calibration fuel cameras size sq loops d1)
        (extrinsic_calibration fuel cameras size sq loops d2).
Proof.
  unfold extrinsic_calibration.
  destruct (2 <=? length cameras)%nat; [|apply agree_pure].
  apply agree_bind; [apply agree_warm_up|]. intros _.
  apply agree_bind; [apply agree_homogeneous_matrices|]. intros hs.
  apply agree_bind; [|intros out; apply agree_pure].
  unfold cam1_H_camX. destruct hs; [apply agree_pure|apply agree_of_option].
Qed.

(** X4: [display_frame] changes neither the outcome of a calibration (the
    transforms returned, the exception raised, or the loop still running
    after the same number of iterations) nor the frames it consumes from
    any camera. *)
Theorem display_changes_nothing fuel cameras size sq loops w :
  fst (extrinsic_calibration fuel cameras size sq loops true w)
  = fst (extrinsic_calibration fuel cameras size sq loops false w) /\
  forall c,
    grabbed (snd (extrinsic_calibration fuel cameras size sq loops true w)) c
    = grabbed (snd (extrinsic_calibration fuel cameras size sq loops false w)) c.
Proof.
  destruct (agree_extrinsic_calibration fuel cameras size sq loops true false w w
              (same_devices_refl w)) as [Hr [_ Hg]].
  split; assumption.
Qed.

End Display.

Section Retry.

Context {cv : OpenCV}.

Lemma pose_loop_first camera size objp mtx display_frame p n : forall w fuel,
  (forall i, (grabbed w camera <= i < grabbed w camera + n)%nat ->
     solve_frame size objp mtx (frames (cameras_of w camera) i) = None) ->
  solve_frame size objp mtx (frames (cameras_of w camera) (grabbed w camera + n))
  = Some p ->
  (n < fuel)%nat ->
  exists w',
    pose_loop fuel camera size objp mtx display_frame w = (Ok p, w') /\
    cameras_of w' = cameras_of w /\
    grabbed w' camera = S (grabbed w camera + n) /\
    (forall c, c <> camera -> grabbed w' c = grabbed w c) /\
    trace w' = trace w ++ concat (repeat (GetRgb camera :: show_events display_frame) (S n)).
Proof.
  induction n as [|n IH]; intros w fuel Hnone Hsome Hf;
    (destruct fuel as [|fuel]; [lia|]); rewrite pose_loop_S.
  - rewrite Nat.add_0_r in Hsome. rewrite Hsome.
    exists (after_frame display_frame camera w). simpl.
    rewrite Nat.eqb_refl, Nat.add_0_r, app_nil_r. repeat split; auto.
    intros c Hc. destruct (Nat.eqb_spec c camera); [contradiction|reflexivity].
  - rewrite Hnone by lia.
    destruct (IH (after_frame display_frame camera w) fuel) as (w' & Hr & Hc & Hg & Ho & Ht).
    + simpl. rewrite Nat.eqb_refl. intros i Hi. apply Hnone. lia.
    + simpl. rewrite Nat.eqb_refl.
      replace (S (grabbed w camera) + n)%nat with (grabbed w camera + S n)%nat by lia.
      exact Hsome.
    + lia.
    + exists w'. simpl in Hc, Hg, Ho, Ht. rewrite Nat.eqb_refl in Hg.
      split; [exact Hr|]. split; [exact Hc|]. split; [rewrite Hg; lia|]. split.
      * intros c Hne. rewrite (Ho c Hne).
        destruct (Nat.eqb_spec c camera); [contradiction|reflexivity].
      * rewrite Ht, <- app_assoc. reflexivity.
Qed.

Lemma pose_loop_blind camera size objp mtx display_frame fuel : forall w,
  (forall i, (grabbed w camera <= i)%nat ->
     solve_frame size objp mtx (frames (cameras_of w camera) i) = None) ->
  exists w',
    pose_loop fuel camera size objp mtx display_frame w = (OutOfFuel, w') /\
    grabbed w' camera = (grabbed w camera + fuel)%nat.
Proof.
  induction fuel as [|fuel IH]; intros w Hnone.
  - exists w. split; [reflexivity|lia].
  - rewrite pose_loop_S, Hnone by lia.
    destruct (IH (after_frame display_frame camera w)) as (w' & Hr & Hg).
    + simpl. rewrite Nat.eqb_refl. intros i Hi. apply Hnone. lia.
    + exists w'. split; [exact Hr|]. rewrite Hg. simpl. rewrite Nat.eqb_refl. lia.
Qed.

(** X5: the estimator returns the pose read off the first frame, from
    where the stream of its camera stands, in which the corners are found
    and the solve succeeds; the frames before it are consumed and dropped
    (also those whose corners were found but whose solve failed), no other
    camera is read, and the calls made are one [get_intrinsics], the
    window opening if displayed, then one [get_rgb] per frame, each
    followed by the display calls if displayed. *)
Theorem estimation_returns_first_solvable
    fuel camera size sq display_frame w n p :
  (forall i, (grabbed w camera <= i < grabbed w camera + n)%nat ->
     estimate_of (cameras_of w camera) size sq (frames (cameras_of w camera) i) = None) ->
  estimate_of (cameras_of w camera) size sq
    (frames (cameras_of w camera) (grabbed w camera + n)) = Some p ->
  (n < fuel)%nat ->
  exists w',
    chessboard_pose_estimation fuel camera size sq display_frame w = (Ok p, w') /\
    grabbed w' camera = S (grabbed w camera + n) /\
    (forall c, c <> camera -> grabbed w' c = grabbed w c) /\
    trace w' = trace w
               ++ GetIntrinsics camera :: (if display_frame then [NamedWindow] else [])
               ++ concat (repeat (GetRgb camera :: show_events display_frame) (S n)).
Proof.
  intros Hnone Hsome Hf. destruct (object_points_some size sq) as [objp E].
  unfold estimate_of in Hnone, Hsome. rewrite E in Hnone, Hsome.
  rewrite (estimation_unfold _ _ _ _ _ _ objp E).
  destruct (pose_loop_first camera size objp
              (camera_matrix (intrinsics (cameras_of w camera))) display_frame p n
              (before_loop display_frame camera w) fuel Hnone Hsome Hf)
    as (w' & Hr & _ & Hg & Ho & Ht).
  exists w'. simpl in Hg, Ho, Ht. repeat split; auto.
  rewrite Ht, <- app_assoc. reflexivity.
Qed.

Lemma blind_estimation_runs_on fuel camera size sq display_frame w :
  (forall i, (grabbed w camera <= i)%nat ->
     estimate_of (cameras_of w camera) size sq (frames (cameras_of w camera) i) = None) ->
  exists w',
    chessboard_pose_estimation fuel camera size sq display_frame w = (OutOfFuel, w') /\
    grabbed w' camera = (grabbed w camera + fuel)%nat.
Proof.
  intros Hnone. destruct (object_points_some size sq) as [objp E].
  unfold estimate_of in Hnone. rewrite E in Hnone.
  rewrite (estimation_unfold _ _ _ _ _ _ objp E).
  apply (pose_loop_blind camera size objp _ display_frame fuel
           (before_loop display_frame camera w) Hnone).
Qed.

(** X6: while no frame from where the stream stands lets a pose be found,
    the estimator neither returns nor raises: after any number of
    iterations the loop is still running and has consumed one frame per
    iteration. *)
Theorem estimation_blocks_without_board fuel camera size sq display_frame w :
  (forall i, (grabbed w camera <= i)%nat ->
     estimate_of (cameras_of w camera) size sq (frames (cameras_of w camera) i) = None) ->
  exists w',
    chessboard_pose_estimation fuel camera size sq display_frame w = (OutOfFuel, w') /\
    grabbed w' camera = (grabbed w camera + fuel)%nat.
Proof.
  intros Hnone. destruct (object_points_some size sq) as [objp E].
  unfold estimate_of in Hnone. rewrite E in Hnone.
  rewrite (estimation_unfold _ _ _ _ _ _ objp E).
  destruct (pose_loop_blind camera size objp
              (camera_matrix (intrinsics (cameras_of w camera))) display_frame fuel
              (before_loop display_frame camera w) Hnone) as (w' & Hr & Hg).
  exists w'. split; [exact Hr|exact Hg].
Qed.

End Retry.

Section Outcomes.

Context {cv : OpenCV}.

Lemma pose_loop_no_raise camera size objp mtx display_frame fuel : forall w e,
  fst (pose_loop fuel camera size objp mtx display_frame w) <> Raise e.
Proof.
  induction fuel as [|fuel IH]; intros w e; [discriminate|].
  rewrite pose_loop_S. destruct (solve_frame _ _ _ _); [discriminate|apply IH].
Qed.

Lemma estimation_no_raise fuel camera size sq display_frame w e :
  fst (chessboard_pose_estimation fuel camera size sq display_frame w) <> Raise e.
Proof.
  destruct (object_points_some size sq) as [objp E].
  rewrite (estimation_unfold _ _ _ _ _ _ objp E). apply pose_loop_no_raise.
Qed.

Lemma sample_loop_no_raise fuel camera size sq display_frame k :
  forall rots trasls w e,
  fst (sample_loop fuel camera size sq display_frame k rots trasls w) <> Raise e.
Proof.
  induction k as [|k IH]; intros rots trasls w e; cbn [sample_loop];
    [discriminate|].
  unfold bind.
  pose proof (estimation_no_raise fuel camera size sq display_frame w) as Hn.
  destruct (chessboard_pose_estimation _ _ _ _ _ w) as [[p|e'|] w1]; simpl in *.
  - apply IH.
  - exfalso. now apply (Hn e').
  - discriminate.
Qed.

Lemma camera_pose_no_raise fuel camera size sq loops display_frame w e :
  (1 <= loops)%Z ->
  fst (camera_pose fuel camera size sq loops display_frame w) <> Raise e.
Proof.
  intros Hloops. unfold camera_pose. destruct (loops =? 1)%Z eqn:E1.
  - apply estimation_no_raise.
  - apply Z.eqb_neq in E1. unfold bind.
    pose proof (sample_loop_no_raise fuel camera size sq display_frame
                  (Z.to_nat loops) [] [] w) as Hn.
    destruct (sample_loop _ _ _ _ _ _ _ _ w) as [[[rs ts]|e'|] w1] eqn:Es; simpl in *.
    + apply sample_loop_inv in Es. destruct Es as (ps & Hs & Hlen & -> & ->).
      apply sampled_facts in Hs. destruct Hs as (_ & Hf & _). simpl.
      assert (Hne : ps <> []) by (destruct ps; [simpl in Hlen; lia|discriminate]).
      destruct (mean0_spec 3 3 (map fst ps)) as (m & Hm & _).
      { destruct ps; [congruence|discriminate]. }
      { apply Forall_map. eapply Forall_impl; [|exact Hf]. now intros ? []. }
      destruct (mean0_spec 3 1 (map snd ps)) as (m' & Hm' & _).
      { destruct ps; [congruence|discriminate]. }
      { apply Forall_map. eapply Forall_impl; [|exact Hf]. now intros ? []. }
      rewrite Hm. simpl. rewrite Hm'. discriminate.
    + exfalso. now apply (Hn e').
    + discriminate.
Qed.

Lemma homogeneous_matrices_no_raise fuel size sq loops display_frame cameras :
  (1 <= loops)%Z -> forall w e,
  fst (homogeneous_matrices fuel cameras size sq loops display_frame w) <> Raise e.
Proof.
  intros Hloops. induction cameras as [|camera rest IH]; intros w e;
    cbn [homogeneous_matrices]; [discriminate|].
  unfold bind.
  pose proof (camera_pose_no_raise fuel camera size sq loops display_frame w) as Hn.
  destruct (camera_pose _ _ _ _ _ _ w) as [[p|e'|] w1] eqn:Ep; simpl in *.
  - destruct (camera_pose_shape _ _ _ _ _ _ _ _ _ Ep) as [Hr Ht].
    destruct (homogeneous_shape _ _ Hr Ht)
      as (a & b & c & d & e0 & f & g & h & i & x & y & z & _ & _ & Eh).
    rewrite Eh. simpl. specialize (IH w1 e).
    destruct (homogeneous_matrices _ _ _ _ _ _ w1) as [[hs|e'|] w2]; simpl in *;
      [discriminate|exact IH|discriminate].
  - exfalso. now apply (Hn e').
  - discriminate.
Qed.

Lemma camera_pose_blind fuel camera size sq loops display_frame w :
  (1 <= loops)%Z ->
  (forall i, estimate_of (cameras_of w camera) size sq
               (frames (cameras_of w camera) i) = None) ->
  fst (camera_pose fuel camera size sq loops display_frame w) = OutOfFuel.
Proof.
  intros Hloops Hnone.
  destruct (blind_estimation_runs_on fuel camera size sq display_frame w)
    as (w' & Hr & _); [auto|].
  unfold camera_pose. destruct (loops =? 1)%Z eqn:E1; [now rewrite Hr|].
  destruct (Z.to_nat loops) as [|k] eqn:Ek; [lia|].
  cbn [sample_loop]. unfold bind. now rewrite Hr.
Qed.

Lemma homogeneous_matrices_blind fuel size sq loops display_frame c cameras :
  (1 <= loops)%Z -> In c cameras -> forall w,
  (forall i, estimate_of (cameras_of w c) size sq (frames (cameras_of w c) i) = None) ->
  fst (homogeneous_matrices fuel cameras size sq loops display_frame w) = OutOfFuel.
Proof.
  intros Hloops. induction cameras as [|camera rest IH]; intros Hin w Hnone;
    [contradiction|].
  cbn [homogeneous_matrices]. unfold bind.
  pose proof (camera_pose_no_raise fuel camera size sq loops display_frame w) as Hn.
  destruct (camera_pose _ _ _ _ _ _ w) as [[p|e'|] w1] eqn:Ep; simpl in *.
  - destruct (camera_pose_shape _ _ _ _ _ _ _ _ _ Ep) as [Hr Ht].
    destruct (homogeneous_shape _ _ Hr Ht)
      as (a & b & c0 & d & e0 & f & g & h & i & x & y & z & _ & _ & Eh).
    rewrite Eh. simpl.
    destruct Hin as [->|Hin].
    + pose proof (camera_pose_blind fuel c size sq loops display_frame w Hloops Hnone)
        as Hb.
      rewrite Ep in Hb. discriminate.
    + apply camera_pose_inv in Ep. destruct Ep as (_ & ps & Hs & _).
      apply sampled_facts in Hs. destruct Hs as (Hc & _).
      assert (Hb : fst (homogeneous_matrices fuel rest size sq loops display_frame w1)
                   = OutOfFuel).
      { apply IH; auto. rewrite Hc. exact Hnone. }
      destruct (homogeneous_matrices _ _ _ _ _ _ w1) as [[hs|e'|] w2]; simpl in *;
        try discriminate. reflexivity.
  - exfalso. now apply (Hn e').
  - reflexivity.
Qed.




Lemma assemble_facts fuel cameras size sq loops display_frame w hs w2 :
  assemble fuel cameras size sq loops display_frame w = (Ok hs, w2) ->
  length hs = length cameras /\ Forall affine hs /\
  exists evs, trace w2 = trace w ++ warm_events cameras ++ evs /\
    calls evs = flat_map (fun c => repeat c (Z.to_nat loops)) cameras.
Proof.
  intros H. destruct (assemble_run fuel cameras size sq loops display_frame w)
    as (w1 & _ & Ht & Ha).
  rewrite Ha in H. apply homogeneous_matrices_inv in H.
  destruct H as (Hl & Haff & _ & evs & Ht' & Hcalls).
  repeat split; auto. exists evs. split; auto.
  rewrite Ht', Ht, <- app_assoc. reflexivity.
Qed.

(** X7: a calibration of two or more cameras, with at least one sample
    per camera, never returns when one of the listed cameras never shows
    a frame from which a pose is found (for instance because the board
    size passed does not match the board): however long it runs, it
    neither returns transforms nor raises. *)
Theorem calibration_blocks_on_blind_camera fuel cameras size sq loops display_frame w c :
  (2 <= length cameras)%nat -> (1 <= loops)%Z -> In c cameras ->
  (forall i, estimate_of (cameras_of w c) size sq (frames (cameras_of w c) i) = None) ->
  fst (extrinsic_calibration fuel cameras size sq loops display_frame w) = OutOfFuel.
Proof.
  intros Hn Hloops Hin Hnone. rewrite extrinsic_split by exact Hn.
  destruct (assemble_run fuel cameras size sq loops display_frame w)
    as (w1 & Hc & _ & Ha).
  rewrite Ha.
  pose proof (homogeneous_matrices_blind fuel size sq loops display_frame c cameras
                Hloops Hin w1) as Hb.
  rewrite Hc in Hb. specialize (Hb Hnone).
  destruct (homogeneous_matrices _ _ _ _ _ _ w1) as [[hs|e|] w2]; simpl in *;
    try discriminate. reflexivity.
Qed.



(** X9: with at least one sample per camera, the only exceptions a
    calibration raises by itself are the failed assertion, only when
    fewer than two cameras are passed, and LinAlgError, only once every
    camera has been warmed up and sampled and one matrix per camera has
    been assembled; the slice assignments of lines 50-53 and the indexing
    of line 57 never fail. *)
Theorem calibration_errors fuel cameras size sq loops display_frame w e :
  (1 <= loops)%Z ->
  fst (extrinsic_calibration fuel cameras size sq loops display_frame w) = Raise e ->
  (e = AssertionError /\ (length cameras < 2)%nat) \/
  (e = LinAlgError /\ (2 <= length cameras)%nat /\
   exists hs, fst (assemble fuel cameras size sq loops display_frame w) = Ok hs /\
              length hs = length cameras).
Proof.
  intros Hloops H.
  destruct (Nat.lt_ge_cases (length cameras) 2) as [Hlt|Hge].
  { rewrite assertion_fails in H by exact Hlt. inversion H. auto. }
  right. rewrite extrinsic_split in H by exact Hge.
  destruct (assemble fuel cameras size sq loops display_frame w) as [[hs|e'|] w2] eqn:Ea.
  - destruct (assemble_facts _ _ _ _ _ _ _ _ _ Ea) as (Hl & Haff & _).
    destruct hs as [|H_ref hs]; [simpl in Hl; lia|].
    destruct (relative H_ref (H_ref :: hs)) as [out|] eqn:Er; [discriminate|].
    inversion H; subst. repeat split; auto.
    exists (H_ref :: hs). split; [reflexivity|exact Hl].
  - exfalso.
    destruct (assemble_run fuel cameras size sq loops display_frame w)
      as (w1 & _ & _ & Ha).
    rewrite Ha in Ea.
    apply (homogeneous_matrices_no_raise fuel size sq loops display_frame cameras
             Hloops w1 e').
    now rewrite Ea.
  - discriminate.
Qed.

(** X10: in a calibration that returns, the estimator is called [loops]
    times on the first camera of the list, then [loops] times on the
    second, and so on in list order, all after the warm-up: cameras are
    sampled one after the other, never interleaved. *)
Theorem estimator_calls_in_list_order fuel cameras size sq loops display_frame w out :
  fst (extrinsic_calibration fuel cameras size sq loops display_frame w) = Ok out ->
  exists evs,
    trace (snd (extrinsic_calibration fuel cameras size sq loops display_frame w))
    = trace w ++ warm_events cameras ++ evs /\
    calls evs = flat_map (fun c => repeat c (Z.to_nat loops)) cameras.
Proof.
  intros H.
  assert (Hn : (2 <= length cameras)%nat).
  { destruct (Nat.lt_ge_cases (length cameras) 2) as [Hlt|]; auto.
    rewrite assertion_fails in H by exact Hlt. discriminate. }
  rewrite extrinsic_split in * by exact Hn.
  destruct (assemble fuel cameras size sq loops display_frame w) as [[hs|e'|] w2] eqn:Ea;
    try discriminate.
  destruct (assemble_facts _ _ _ _ _ _ _ _ _ Ea) as (_ & _ & evs & Ht & Hcalls).
  exists evs. split; [|exact Hcalls].
  destruct hs as [|H_ref hs]; [discriminate|].
  destruct (relative H_ref (H_ref :: hs)); [|discriminate]. exact Ht.
Qed.

End Outcomes.

Section Composition.

Context {cv : OpenCV}.

Lemma matmul_affine_assoc a b c :
  affine a -> affine b -> affine c ->
  matmul (matmul a b) c = matmul a (matmul b c).
Proof.
  intros (a0 & a1 & a2 & a3 & a4 & a5 & a6 & a7 & a8 & a9 & a10 & a11 & ->)
         (b0 & b1 & b2 & b3 & b4 & b5 & b6 & b7 & b8 & b9 & b10 & b11 & ->)
         (c0 & c1 & c2 & c3 & c4 & c5 & c6 & c7 & c8 & c9 & c10 & c11 & ->).
  arrays. repeat (f_equal; try ring).
Qed.

Lemma matmul_affine_eye a : affine a -> matmul a (eye 4) = a.
Proof.
  intros (a0 & a1 & a2 & a3 & a4 & a5 & a6 & a7 & a8 & a9 & a10 & a11 & ->).
  arrays. repeat (f_equal; try ring).
Qed.

Lemma eye_affine : affine (eye 4).
Proof. do 12 eexists. reflexivity. Qed.

(** what a returned calibration is made of *)
Lemma calibration_parts fuel cameras size sq loops display_frame w hs out :
  fst (assemble fuel cameras size sq loops display_frame w) = Ok hs ->
  fst (extrinsic_calibration fuel cameras size sq loops display_frame w) = Ok out ->
  Forall affine hs /\ length hs = S (length out) /\
  forall k, (k < length out)%nat ->
    exists H_inv, inv (nth (S k) hs []) = Some H_inv /\
      nth k out [] = matmul (nth 0 hs []) H_inv.
Proof.
  intros Ha H.
  assert (Hn : (2 <= length cameras)%nat).
  { destruct (Nat.lt_ge_cases (length cameras) 2) as [Hlt|]; auto.
    rewrite assertion_fails in H by exact Hlt. discriminate. }
  rewrite extrinsic_split in H by exact Hn.
  destruct (assemble fuel cameras size sq loops display_frame w) as [[hs'|e'|] w2] eqn:Ea;
    try discriminate.
  simpl in Ha. inversion Ha; subst hs'. clear Ha.
  destruct (assemble_facts _ _ _ _ _ _ _ _ _ Ea) as (Hl & Haff & _).
  destruct hs as [|H_ref hs]; [discriminate|].
  destruct (relative H_ref (H_ref :: hs)) as [every|] eqn:Er; [|discriminate].
  simpl in H. inversion H; subst out. clear H.
  destruct (relative_inv _ _ _ Er) as [Hlev Hk].
  split; [exact Haff|]. split.
  { destruct every; simpl in *; lia. }
  intros k Hlt. destruct (Hk (S k)) as (H_inv & Hi & Hnth).
  { destruct every; simpl in *; lia. }
  exists H_inv. split; [exact Hi|]. now rewrite nth_tl.
Qed.

(** X11: each returned transform, multiplied by the transform assembled
    for its own camera, gives back the transform assembled for the
    reference camera: [cam1_H_camX . H_X = H_ref]. *)
Theorem relative_transform_recovers_reference
    fuel cameras size sq loops display_frame w hs out k :
  fst (assemble fuel cameras size sq loops display_frame w) = Ok hs ->
  fst (extrinsic_calibration fuel cameras size sq loops display_frame w) = Ok out ->
  (k < length out)%nat ->
  matmul (nth k out []) (nth (S k) hs []) = nth 0 hs [].
Proof.
  intros Ha H Hk.
  destruct (calibration_parts _ _ _ _ _ _ _ _ _ Ha H) as (Haff & Hl & Hparts).
  destruct (Hparts k Hk) as (H_inv & Hi & ->).
  rewrite Forall_forall in Haff.
  assert (A0 : affine (nth 0 hs [])) by (apply Haff, nth_In; lia).
  assert (Ak : affine (nth (S k) hs [])) by (apply Haff, nth_In; lia).
  destruct (affine_inv _ _ Ak Hi) as (Ai & _ & H2).
  rewrite matmul_affine_assoc, H2 by assumption. now apply matmul_affine_eye.
Qed.

(** X12: returned transforms chain: the transform of camera k + 1 is the
    transform of camera j + 1 followed by [H_(j+1) . inverse(H_(k+1))],
    which is what the same loop computes for camera k + 1 when camera
    j + 1 is the reference. *)
Theorem relative_transforms_chain
    fuel cameras size sq loops display_frame w hs out j k :
  fst (assemble fuel cameras size sq loops display_frame w) = Ok hs ->
  fst (extrinsic_calibration fuel cameras size sq loops display_frame w) = Ok out ->
  (j < length out)%nat -> (k < length out)%nat ->
  exists H_inv,
    inv (nth (S k) hs []) = Some H_inv /\
    nth k out [] = matmul (nth j out []) (matmul (nth (S j) hs []) H_inv).
Proof.
  intros Ha H Hj Hk.
  destruct (calibration_parts _ _ _ _ _ _ _ _ _ Ha H) as (Haff & Hl & Hparts).
  destruct (Hparts k Hk) as (Hk_inv & Hik & Ek).
  destruct (Hparts j Hj) as (Hj_inv & Hij & Ej).
  exists Hk_inv. split; [exact Hik|]. rewrite Ek, Ej.
  rewrite Forall_forall in Haff.
  assert (A0 : affine (nth 0 hs [])) by (apply Haff, nth_In; lia).
  assert (Aj : affine (nth (S j) hs [])) by (apply Haff, nth_In; lia).
  assert (Ak : affine (nth (S k) hs [])) by (apply Haff, nth_In; lia).
  destruct (affine_inv _ _ Aj Hij) as (Aji & _ & Hj2).
  destruct (affine_inv _ _ Ak Hik) as (Aki & _ & _).
  rewrite (matmul_affine_assoc (nth 0 hs []) Hj_inv) by auto using matmul_affine.
  rewrite <- (matmul_affine_assoc Hj_inv) by assumption.
  rewrite Hj2.
  f_equal. symmetry.
  destruct Aki as (a0 & a1 & a2 & a3 & a4 & a5 & a6 & a7 & a8 & a9 & a10 & a11 & ->).
  arrays. repeat (f_equal; try ring).
Qed.

End Composition.

(** ** The further properties on the rigs *)

Lemma some_pose_eq (o : option (matrix * matrix)) rot tr :
  match o with
  | Some p => matrix_eqb (fst p) rot && matrix_eqb (snd p) tr
  | None => false
  end = true ->
  o = Some (rot, tr).
Proof.
  destruct o as [[a b]|]; simpl; try discriminate.
  intros H. apply andb_true_iff in H. destruct H as [Ha Hb].
  apply matrix_eqb_eq in Ha, Hb. now subst.
Qed.


Lemma unlisted_camera_untouched_witness :
  ~ In 2%nat [0; 1]%nat /\
  let w' := snd (extrinsic_calibration 5 [0; 1]%nat Rig.board Rig.square 2 true
                   Rig.start) in
  cameras_of w' = cameras_of Rig.start /\
  grabbed w' 2 = grabbed Rig.start 2 /\
  exists evs, trace w' = trace Rig.start ++ evs /\
    captures 2 evs = 0%nat /\ ~ In 2%nat (calls evs).
Proof.
  assert (Hn : ~ In 2%nat [0; 1]%nat) by (simpl; lia).
  split; [exact Hn|].
  exact (unlisted_camera_untouched 5 [0; 1]%nat Rig.board Rig.square 2 true Rig.start
           2 Hn).
Defined.

Lemma warm_up_consumes_frames_witness :
  (2 <= length [0; 1; 0]%nat)%nat /\
  (grabbed Rig.start 0 + 10 * count_occ Nat.eq_dec [0; 1; 0]%nat 0%nat
   <= grabbed (snd (extrinsic_calibration 5 [0; 1; 0]%nat Rig.board Rig.square 1 false
                      Rig.start)) 0)%nat.
Proof.
  assert (Hn : (2 <= length [0; 1; 0]%nat)%nat) by (simpl; lia).
  split; [exact Hn|].
  exact (warm_up_consumes_frames 5 [0; 1; 0]%nat Rig.board Rig.square 1 false
           Rig.start 0 Hn).
Defined.

Lemma estimation_returns_first_solvable_witness :
  (forall i, (grabbed Rig.warmed 2 <= i < grabbed Rig.warmed 2 + 1)%nat ->
     estimate_of (cameras_of Rig.warmed 2) Rig.board Rig.square
       (frames (cameras_of Rig.warmed 2) i) = None) /\
  estimate_of (cameras_of Rig.warmed 2) Rig.board Rig.square
    (frames (cameras_of Rig.warmed 2) (grabbed Rig.warmed 2 + 1))
  = Some (Rig.quarter_turn, Rig.ahead) /\
  (1 < 5)%nat /\
  exists w',
    chessboard_pose_estimation 5 2 Rig.board Rig.square true Rig.warmed
    = (Ok (Rig.quarter_turn, Rig.ahead), w') /\
    grabbed w' 2 = S (grabbed Rig.warmed 2 + 1) /\
    (forall c, c <> 2%nat -> grabbed w' c = grabbed Rig.warmed c) /\
    trace w' = trace Rig.warmed
               ++ GetIntrinsics 2 :: [NamedWindow]
               ++ concat (repeat (GetRgb 2 :: show_events true) 2).
Proof.
  assert (Hnone : forall i,
             (grabbed Rig.warmed 2 <= i < grabbed Rig.warmed 2 + 1)%nat ->
             estimate_of (cameras_of Rig.warmed 2) Rig.board Rig.square
               (frames (cameras_of Rig.warmed 2) i) = None).
  { intros i Hi. assert (i = 10%nat) by (simpl in Hi; lia). subst i.
    vm_compute. reflexivity. }
  assert (Hsome : estimate_of (cameras_of Rig.warmed 2) Rig.board Rig.square
                    (frames (cameras_of Rig.warmed 2) (grabbed Rig.warmed 2 + 1))
                  = Some (Rig.quarter_turn, Rig.ahead)).
  { apply some_pose_eq. vm_compute. reflexivity. }
  assert (Hf : (1 < 5)%nat) by lia.
  split; [exact Hnone|]. split; [exact Hsome|]. split; [exact Hf|].
  exact (estimation_returns_first_solvable 5 2 Rig.board Rig.square true Rig.warmed 1
           (Rig.quarter_turn, Rig.ahead) Hnone Hsome Hf).
Defined.

Lemma rig_wrong_board_size i :
  estimate_of (cameras_of Rig.start 0) (3, 3)%nat Rig.square
    (frames (cameras_of Rig.start 0) i) = None.
Proof.
  change (frames (cameras_of Rig.start 0) i) with Rig.upright.
  vm_compute. reflexivity.
Qed.

Lemma estimation_blocks_without_board_witness :
  (forall i, (grabbed Rig.start 0 <= i)%nat ->
     estimate_of (cameras_of Rig.start 0) (3, 3)%nat Rig.square
       (frames (cameras_of Rig.start 0) i) = None) /\
  exists w',
    chessboard_pose_estimation 7 0 (3, 3)%nat Rig.square false Rig.start
    = (OutOfFuel, w') /\
    grabbed w' 0 = (grabbed Rig.start 0 + 7)%nat.
Proof.
  split; [intros i _; apply rig_wrong_board_size|].
  apply (estimation_blocks_without_board 7 0 (3, 3)%nat Rig.square false Rig.start).
  intros i _. apply rig_wrong_board_size.
Defined.

Lemma calibration_blocks_on_blind_camera_witness :
  (2 <= length [1; 0]%nat)%nat /\ (1 <= 2)%Z /\ In 0%nat [1; 0]%nat /\
  (forall i, estimate_of (cameras_of Rig.start 0) (3, 3)%nat Rig.square
               (frames (cameras_of Rig.start 0) i) = None) /\
  fst (extrinsic_calibration 7 [1; 0]%nat (3, 3)%nat Rig.square 2 false Rig.start)
  = OutOfFuel.
Proof.
  assert (Hn : (2 <= length [1; 0]%nat)%nat) by (simpl; lia).
  assert (Hl : (1 <= 2)%Z) by lia.
  assert (Hin : In 0%nat [1; 0]%nat) by (simpl; auto).
  split; [exact Hn|]. split; [exact Hl|]. split; [exact Hin|].
  split; [exact rig_wrong_board_size|].
  exact (calibration_blocks_on_blind_camera 7 [1; 0]%nat (3, 3)%nat Rig.square 2 false
           Rig.start 0 Hn Hl Hin rig_wrong_board_size).
Defined.


Lemma calibration_errors_witness :
  (1 <= 2)%Z /\
  fst (extrinsic_calibration 5 [0; 1]%nat Rig.board Rig.square 2 false Flip.start)
  = Raise LinAlgError /\
  ((LinAlgError = AssertionError /\ (length [0; 1]%nat < 2)%nat) \/
   (LinAlgError = LinAlgError /\ (2 <= length [0; 1]%nat)%nat /\
    exists hs,
      fst (assemble 5 [0; 1]%nat Rig.board Rig.square 2 false Flip.start) = Ok hs /\
      length hs = length [0; 1]%nat)).
Proof.
  assert (Hl : (1 <= 2)%Z) by lia.
  assert (Hr : fst (extrinsic_calibration 5 [0; 1]%nat Rig.board Rig.square 2 false
                      Flip.start) = Raise LinAlgError) by (vm_compute; reflexivity).
  split; [exact Hl|]. split; [exact Hr|].
  exact (calibration_errors 5 [0; 1]%nat Rig.board Rig.square 2 false Flip.start
           LinAlgError Hl Hr).
Defined.

Lemma estimator_calls_in_list_order_witness :
  fst (extrinsic_calibration 5 [0; 1; 2]%nat Rig.board Rig.square 2 false Rig.start)
  = Ok [[[1; 1; 0; 0]; [- (1); 1; 0; 0]; [0; 0; 1; 0]; [0; 0; 0; 1]];
        Rig.turned_seen_from_upright] /\
  exists evs,
    trace (snd (extrinsic_calibration 5 [0; 1; 2]%nat Rig.board Rig.square 2 false
                  Rig.start))
    = trace Rig.start ++ warm_events [0; 1; 2]%nat ++ evs /\
    calls evs = flat_map (fun c => repeat c (Z.to_nat 2)) [0; 1; 2]%nat.
Proof.
  assert (H : fst (extrinsic_calibration 5 [0; 1; 2]%nat Rig.board Rig.square 2 false
                     Rig.start)
              = Ok [[[1; 1; 0; 0]; [- (1); 1; 0; 0]; [0; 0; 1; 0]; [0; 0; 0; 1]];
                    Rig.turned_seen_from_upright]).
  { apply ok_list_eq. vm_compute. reflexivity. }
  split; [exact H|].
  exact (estimator_calls_in_list_order 5 [0; 1; 2]%nat Rig.board Rig.square 2 false
           Rig.start _ H).
Defined.

Lemma relative_transform_recovers_reference_witness :
  fst (assemble 5 [0; 1; 2]%nat Rig.board Rig.square 1 false Rig.start)
  = Ok (map Rig.assembled [0; 1; 2]%nat) /\
  fst (extrinsic_calibration 5 [0; 1; 2]%nat Rig.board Rig.square 1 false Rig.start)
  = Ok [eye 4; Rig.turned_seen_from_upright] /\
  (1 < length [eye 4; Rig.turned_seen_from_upright])%nat /\
  matmul (nth 1 [eye 4; Rig.turned_seen_from_upright] [])
         (nth 2 (map Rig.assembled [0; 1; 2]%nat) [])
  = nth 0 (map Rig.assembled [0; 1; 2]%nat) [].
Proof.
  assert (Ha : fst (assemble 5 [0; 1; 2]%nat Rig.board Rig.square 1 false Rig.start)
               = Ok (map Rig.assembled [0; 1; 2]%nat)).
  { apply ok_list_eq. vm_compute. reflexivity. }
  assert (Hout : fst (extrinsic_calibration 5 [0; 1; 2]%nat Rig.board Rig.square 1
                        false Rig.start)
                 = Ok [eye 4; Rig.turned_seen_from_upright]).
  { apply ok_list_eq. vm_compute. reflexivity. }
  assert (Hk : (1 < length [eye 4; Rig.turned_seen_from_upright])%nat) by (simpl; lia).
  split; [exact Ha|]. split; [exact Hout|]. split; [exact Hk|].
  exact (relative_transform_recovers_reference 5 [0; 1; 2]%nat Rig.board Rig.square 1
           false Rig.start _ _ 1 Ha Hout Hk).
Defined.

Lemma relative_transforms_chain_witness :
  fst (assemble 5 [0; 1; 2]%nat Rig.board Rig.square 1 false Rig.start)
  = Ok (map Rig.assembled [0; 1; 2]%nat) /\
  fst (extrinsic_calibration 5 [0; 1; 2]%nat Rig.board Rig.square 1 false Rig.start)
  = Ok [eye 4; Rig.turned_seen_from_upright] /\
  (0 < length [eye 4; Rig.turned_seen_from_upright])%nat /\
  (1 < length [eye 4; Rig.turned_seen_from_upright])%nat /\
  exists H_inv,
    inv (nth 2 (map Rig.assembled [0; 1; 2]%nat) []) = Some H_inv /\
    nth 1 [eye 4; Rig.turned_seen_from_upright] []
    = matmul (nth 0 [eye 4; Rig.turned_seen_from_upright] [])
        (matmul (nth 1 (map Rig.assembled [0; 1; 2]%nat) []) H_inv).
Proof.
  assert (Ha : fst (assemble 5 [0; 1; 2]%nat Rig.board Rig.square 1 false Rig.start)
               = Ok (map Rig.assembled [0; 1; 2]%nat)).
  { apply ok_list_eq. vm_compute. reflexivity. }
  assert (Hout : fst (extrinsic_calibration 5 [0; 1; 2]%nat Rig.board Rig.square 1
                        false Rig.start)
                 = Ok [eye 4; Rig.turned_seen_from_upright]).
  { apply ok_list_eq. vm_compute. reflexivity. }
  assert (Hj : (0 < length [eye 4; Rig.turned_seen_from_upright])%nat) by (simpl; lia).
  assert (Hk : (1 < length [eye 4; Rig.turned_seen_from_upright])%nat) by (simpl; lia).
  split; [exact Ha|]. split; [exact Hout|]. split; [exact Hj|]. split; [exact Hk|].
  exact (relative_transforms_chain 5 [0; 1; 2]%nat Rig.board Rig.square 1 false
           Rig.start _ _ 0 1 Ha Hout Hj Hk).
Defined.

(** ** The object points for an int or a float square size *)











